(** * Document retrieval core of hr-automation-dashboard (document_processor.py)

    A shallow embedding of [src/document_processor.py]: the chunker, the
    chunk store persisted as one JSON mapping with the uploads directory,
    uploads keyed by the MD5 of their bytes, deletion and listing, the
    keyword search with synonym expansion, the semantic search with its
    random fallback, and the context assembler.

    Modelling conventions.
    - A Python [str] is a [list ascii]; text outside ASCII is not represented
      (the UTF-8 decoding of uploaded bytes is a parameter, see
      [extractors]).
    - Python's numeric scores (an [int] that becomes a [float]) are exact
      rationals [Q]; rounding of binary floating point is not modelled.
    - A Python [set] is a duplicate-free list; iterating it follows the list.
    - A Python [dict] is an association list in insertion order: assigning an
      existing key replaces its value in place, a new key is appended. *)

From Stdlib Require Import Ascii String.
From Stdlib Require Import List ZArith QArith Bool Lia Sorting.Sorted Sorting.Permutation.
Import ListNotations.
From Stdlib Require DecimalString DecimalNat.

Close Scope Q_scope.
Open Scope list_scope.

(** ** Strings *)

Definition str := list ascii.

(** String literals of the source, written as Rocq strings. *)
Definition lit (s : string) : str := list_ascii_of_string s.

Definition ascii_eqb (a b : ascii) : bool := Ascii.eqb a b.

Fixpoint str_eqb (s t : str) : bool :=
  match s, t with
  | [], [] => true
  | a :: s', b :: t' => ascii_eqb a b && str_eqb s' t'
  | _, _ => false
  end.

Definition mem_str (x : str) (l : list str) : bool := existsb (str_eqb x) l.

(** Characters matched by [\s] and used by [str.split()] / [str.strip()]:
    tab, LF, VT, FF, CR, the separators 0x1c..0x1f, and space. *)
Definition is_ws (c : ascii) : bool :=
  let n := nat_of_ascii c in
  ((9 <=? n) && (n <=? 13)) || ((28 <=? n) && (n <=? 32)).

(** [\w] on ASCII: letters, digits and underscore. *)
Definition is_word_char (c : ascii) : bool :=
  let n := nat_of_ascii c in
  ((48 <=? n) && (n <=? 57)) || ((65 <=? n) && (n <=? 90))
  || ((97 <=? n) && (n <=? 122)) || (n =? 95).

Definition is_digit (c : ascii) : bool :=
  let n := nat_of_ascii c in (48 <=? n) && (n <=? 57).

(** [str.lower()] on ASCII. *)
Definition lower_char (c : ascii) : ascii :=
  let n := nat_of_ascii c in
  if (65 <=? n) && (n <=? 90) then ascii_of_nat (n + 32) else c.

Definition lower (s : str) : str := map lower_char s.

(** [str.split()] with no argument: maximal runs of non-whitespace.
    [cur] holds the current word, reversed. *)
Fixpoint split_go (cur : str) (s : str) : list str :=
  match s with
  | [] => match cur with [] => [] | _ => [rev cur] end
  | c :: r =>
      if is_ws c then
        match cur with
        | [] => split_go [] r
        | _ => rev cur :: split_go [] r
        end
      else split_go (c :: cur) r
  end.

Definition split_ws (s : str) : list str := split_go [] s.

(** [sep.join(l)]. *)
Fixpoint join (sep : str) (l : list str) : str :=
  match l with
  | [] => []
  | [x] => x
  | x :: r => x ++ sep ++ join sep r
  end.

Definition space : str := [" "%char].

(** [re.sub(r'\s+', ' ', text)]: every maximal run of whitespace becomes
    one space. *)
Fixpoint collapse_ws (in_run : bool) (s : str) : str :=
  match s with
  | [] => []
  | c :: r =>
      if is_ws c then (if in_run then collapse_ws true r else " "%char :: collapse_ws true r)
      else c :: collapse_ws false r
  end.

Fixpoint lstrip (s : str) : str :=
  match s with
  | c :: r => if is_ws c then lstrip r else s
  | [] => []
  end.

(** [str.strip()]. *)
Definition strip (s : str) : str := rev (lstrip (rev (lstrip s))).

Definition is_sentence_end (c : ascii) : bool :=
  match c with "."%char | "!"%char | "?"%char => true | _ => false end.

(** [re.split(r'(?<=[.!?])\s+', text)]: cut at every maximal run of
    whitespace whose preceding character is one of [.!?]; the run is
    removed. [prev] is the character before the scan position, [skipping]
    says the scan is inside a removed run, [cur] is the current piece
    reversed. Like [re.split], the result is never empty. *)
Fixpoint split_sent_go (prev : option ascii) (skipping : bool) (cur : str) (s : str)
  : list str :=
  match s with
  | [] => [rev cur]
  | c :: r =>
      let cut := match prev with Some p => is_sentence_end p | None => false end in
      if skipping && is_ws c then split_sent_go (Some c) true cur r
      else if is_ws c && cut then rev cur :: split_sent_go (Some c) true [] r
      else split_sent_go (Some c) false (c :: cur) r
  end.

Definition split_sentences (text : str) : list str := split_sent_go None false [] text.

(** Python slicing [l[a:b]] with integer bounds (negative bounds count from
    the end). *)
Definition py_index (n : nat) (a : Z) : nat :=
  if (a <? 0)%Z then Z.to_nat (Z.max 0 (Z.of_nat n + a)) else Nat.min (Z.to_nat a) n.

Definition py_slice {A} (l : list A) (a b : Z) : list A :=
  let i := py_index (length l) a in
  let j := py_index (length l) b in
  firstn (j - i) (skipn i l).

(** [l[-k:]] for [k > 0]: the last [min k (len l)] elements. *)
Definition last_n {A} (l : list A) (k : nat) : list A := skipn (length l - k) l.

(** ** Chunker: [chunk_text] *)

Record pack_state := mk_pack {
  chunks : list str;
  current_chunk : list str;
  current_word_count : Z
}.

(** [if current_chunk: chunks.append(' '.join(current_chunk))]. *)
Definition close_current (cs : list str) (cur : list str) : list str :=
  match cur with
  | [] => cs
  | _ => cs ++ [join space cur]
  end.

(** One iteration of the sentence loop of [chunk_text]. *)
Definition pack_step (chunk_size overlap : Z) (st : pack_state) (sentence : str)
  : pack_state :=
  let sentence_word_count := Z.of_nat (length (split_ws sentence)) in
  if (current_word_count st + sentence_word_count <=? chunk_size)%Z then
    mk_pack (chunks st) (current_chunk st ++ [sentence])
            (current_word_count st + sentence_word_count)
  else
    let chunks' := close_current (chunks st) (current_chunk st) in
    match chunks' with
    | c :: _ =>
        if (0 <? overlap)%Z then
          let prev_words := last_n (split_ws (last chunks' [])) (Z.to_nat overlap) in
          mk_pack chunks' [join space prev_words; sentence]
                  (Z.of_nat (length prev_words) + sentence_word_count)
        else mk_pack chunks' [sentence] sentence_word_count
    | [] => mk_pack chunks' [sentence] sentence_word_count
    end.

(** The word-window fallback loop, [while start < len(words)]. It does not
    terminate when [chunk_size - overlap <= 0]; [None] stands for that.
    [fuel] bounds the iterations: a terminating loop makes at most
    [len(words)] of them. *)
Fixpoint window_loop (fuel : nat) (words : list str) (chunk_size overlap start : Z)
  : option (list str) :=
  if (start <? Z.of_nat (length words))%Z then
    match fuel with
    | O => None
    | S f =>
        let end_ := (start + chunk_size)%Z in
        let chunk := join space (py_slice words start end_) in
        match window_loop f words chunk_size overlap (end_ - overlap) with
        | Some rest => Some (chunk :: rest)
        | None => None
        end
    end
  else Some [].

(** [chunk_text(text, chunk_size, overlap)]; [None] when the fallback loop
    would run forever. *)
Definition chunk_text (text0 : str) (chunk_size overlap : Z) : option (list str) :=
  let text := strip (collapse_ws false text0) in
  let sentences := split_sentences text in
  match sentences with
  | [] => Some (match text with [] => [] | _ => [text] end)
  | _ =>
      let st := fold_left (pack_step chunk_size overlap) sentences (mk_pack [] [] 0) in
      let chunks_out := close_current (chunks st) (current_chunk st) in
      match chunks_out with
      | [] =>
          let words := split_ws text in
          if (Z.of_nat (length words) <=? chunk_size)%Z then
            Some (match text with [] => [] | _ => [text] end)
          else window_loop (length words) words chunk_size overlap 0
      | _ => Some chunks_out
      end
  end.

(** ** Tokens, stopwords and synonym expansion *)

(** [re.findall(r'\b\w+\b', s)]: the maximal runs of word characters. *)
Fixpoint findall_words_go (cur : str) (s : str) : list str :=
  match s with
  | [] => match cur with [] => [] | _ => [rev cur] end
  | c :: r =>
      if is_word_char c then findall_words_go (c :: cur) r
      else match cur with
           | [] => findall_words_go [] r
           | _ => rev cur :: findall_words_go [] r
           end
  end.

Definition findall_words (s : str) : list str := findall_words_go [] s.

(** [set.add]. *)
Definition set_add (x : str) (l : list str) : list str :=
  if mem_str x l then l else l ++ [x].

(** [set.update(xs)]. *)
Definition set_update (acc : list str) (xs : list str) : list str :=
  fold_left (fun a x => set_add x a) xs acc.

(** [set(xs)]. *)
Definition to_set (xs : list str) : list str := set_update [] xs.
(** [STOPWORDS], in the order of the set literal of the source (its
    repeated 'me' included; only membership is used). *)
Definition STOPWORDS : list str := map lit [
  "a"; "an"; "the"; "is"; "are"; "was"; "were"; "be"; "been"; "being";
  "have"; "has"; "had"; "do"; "does"; "did"; "will"; "would"; "could";
  "should"; "may"; "might"; "must"; "shall"; "can"; "need"; "dare"; "ought";
  "used"; "to"; "of"; "in"; "for"; "on"; "with"; "at"; "by"; "from"; "up";
  "about"; "into"; "through"; "during"; "before"; "after"; "above"; "below";
  "between"; "under"; "again"; "further"; "then"; "once"; "here"; "there";
  "when"; "where"; "why"; "how"; "all"; "each"; "few"; "more"; "most";
  "other"; "some"; "such"; "no"; "nor"; "not"; "only"; "own"; "same"; "so";
  "than"; "too"; "very"; "s"; "t"; "just"; "don"; "now"; "i"; "me"; "my";
  "myself"; "we"; "our"; "ours"; "ourselves"; "you"; "your"; "yours";
  "yourself"; "yourselves"; "he"; "him"; "his"; "himself"; "she"; "her";
  "hers"; "herself"; "it"; "its"; "itself"; "they"; "them"; "their";
  "theirs"; "themselves"; "what"; "which"; "who"; "whom"; "this"; "that";
  "these"; "those"; "am"; "and"; "but"; "if"; "or"; "because"; "as"; "until";
  "while"; "although"; "find"; "tell"; "me"; "please"; "help"; "get"; "give";
  "show"; "list"
]%string.

(** [HR_SYNONYMS], key by key in dict order. *)
Definition HR_SYNONYMS : list (str * list str) :=
  map (fun '(k, vs) => (lit k, map lit vs)) [
  ("compensation",
     ["salary"; "pay"; "wage"; "wages"; "payment"; "earnings"; "income";
      "rate"; "hourly"; "$"; "usd"; "stipend"; "remuneration"]);
  ("salary",
     ["compensation"; "pay"; "wage"; "wages"; "payment"; "earnings";
      "income"; "$"; "annual"; "yearly"]);
  ("pay",
     ["salary"; "compensation"; "wage"; "wages"; "payment"; "earnings";
      "income"; "$"]);
  ("benefits",
     ["insurance"; "health"; "dental"; "vision"; "401k"; "retirement"; "pto";
      "vacation"; "perks"; "package"]);
  ("vacation",
     ["pto"; "time off"; "leave"; "holiday"; "holidays"; "days off";
      "paid leave"]);
  ("leave",
     ["pto"; "vacation"; "time off"; "absence"; "sick"; "parental";
      "maternity"; "paternity"]);
  ("requirements",
     ["qualifications"; "required"; "must have"; "experience"; "skills";
      "education"; "degree"]);
  ("qualifications",
     ["requirements"; "required"; "experience"; "skills"; "education";
      "credentials"]);
  ("responsibilities",
     ["duties"; "tasks"; "role"; "job duties"; "accountabilities"; "work";
      "perform"]);
  ("duties",
     ["responsibilities"; "tasks"; "job duties"; "accountabilities"; "work"]);
  ("experience",
     ["years"; "background"; "expertise"; "history"; "prior"; "previous"]);
  ("skills",
     ["abilities"; "competencies"; "proficiency"; "expertise"; "knowledge"]);
  ("policy",
     ["policies"; "procedure"; "procedures"; "guidelines"; "rules"; "handbook"]);
  ("employee",
     ["staff"; "worker"; "team member"; "personnel"; "hire"]);
  ("manager",
     ["supervisor"; "lead"; "director"; "boss"; "head"]);
  ("intern",
     ["internship"; "trainee"; "apprentice"; "entry level"; "junior"]);
  ("job",
     ["position"; "role"; "opportunity"; "opening"; "employment"]);
  ("location",
     ["office"; "remote"; "hybrid"; "onsite"; "work from home"; "wfh";
      "city"; "address"]);
  ("description",
     ["jd"; "job description"; "role description"; "overview"; "summary"]);
  ("hr",
     ["human resources"; "people"; "people operations"; "talent"; "personnel"])
  ]%string.

Definition is_stopword (w : str) : bool := mem_str w STOPWORDS.

(** [set(re.findall(r'\b\w+\b', query.lower())) - STOPWORDS]: the original
    terms of a query (both in [expand_query_with_synonyms] and in
    [simple_search]). *)
Definition original_words (query : str) : list str :=
  filter (fun w => negb (is_stopword w)) (to_set (findall_words (lower query))).

Fixpoint assoc_str {A} (k : str) (l : list (str * A)) : option A :=
  match l with
  | [] => None
  | (k', v) :: r => if str_eqb k k' then Some v else assoc_str k r
  end.

(** [expand_query_with_synonyms(query)]. *)
Definition expand_query_with_synonyms (query : str) : list str :=
  let query_words := original_words query in
  fold_left
    (fun expanded word =>
       let e1 := match assoc_str word HR_SYNONYMS with
                 | Some syns => set_update expanded syns
                 | None => expanded
                 end in
       fold_left
         (fun e '(key, synonyms) =>
            if mem_str word synonyms then set_update (set_add key e) synonyms else e)
         HR_SYNONYMS e1)
    query_words (to_set query_words).

(** ** Substrings and occurrences *)

Fixpoint is_prefix (p s : str) : bool :=
  match p, s with
  | [], _ => true
  | a :: p', b :: s' => ascii_eqb a b && is_prefix p' s'
  | _ :: _, [] => false
  end.

(** [p in s]. *)
Fixpoint is_sub (p s : str) : bool :=
  is_prefix p s || match s with [] => false | _ :: s' => is_sub p s' end.

(** Start positions of the non-overlapping occurrences of a non-empty [p],
    scanning left to right ([re.finditer(re.escape(p), s)]); [skip] counts
    the characters still covered by the last occurrence. *)
Fixpoint occ_go (p : str) (skip i : nat) (s : str) : list nat :=
  match s with
  | [] => []
  | _ :: s' =>
      match skip with
      | S k => occ_go p k (S i) s'
      | O => if is_prefix p s then i :: occ_go p (pred (length p)) (S i) s'
             else occ_go p 0 (S i) s'
      end
  end.

Definition occurrences (p s : str) : list nat :=
  match p with
  | [] => seq 0 (S (length s))
  | _ => occ_go p 0 0 s
  end.

(** [s.count(p)]. *)
Definition str_count (p s : str) : nat := length (occurrences p s).

(** ** A backtracking matcher for the fixed patterns of the domain boost

    [re_match r s] lists, in the order Python's backtracking engine tries
    them, the remainders of [s] left after a match of [r] at the start of
    [s]. *)
Inductive regex :=
| RChar (p : ascii -> bool)
| REps
| RSeq (r1 r2 : regex)
| RAlt (r1 r2 : regex)
| RStar (r : regex)       (* greedy [*] *)
| RLazyStar (r : regex).  (* lazy [*?] *)

Fixpoint star_go (f : str -> list str) (greedy : bool) (fuel : nat) (s : str) : list str :=
  match fuel with
  | O => [s]
  | S k =>
      let more := flat_map (fun s' => if length s' <? length s then star_go f greedy k s' else [])
                           (f s) in
      if greedy then more ++ [s] else s :: more
  end.

Fixpoint re_match (r : regex) (s : str) : list str :=
  match r with
  | RChar p => match s with c :: t => if p c then [t] else [] | [] => [] end
  | REps => [s]
  | RSeq r1 r2 => flat_map (re_match r2) (re_match r1 s)
  | RAlt r1 r2 => re_match r1 s ++ re_match r2 s
  | RStar r1 => star_go (re_match r1) true (length s) s
  | RLazyStar r1 => star_go (re_match r1) false (length s) s
  end.

(** [re.search(r, s) is not None]. *)
Fixpoint re_search (r : regex) (s : str) : bool :=
  match re_match r s with
  | _ :: _ => true
  | [] => match s with [] => false | _ :: s' => re_search r s' end
  end.

(** [re.findall(r, s)] for a pattern without groups. *)
Fixpoint findall_go (r : regex) (fuel : nat) (s : str) : list str :=
  match fuel with
  | O => []
  | S k =>
      match re_match r s with
      | s' :: _ =>
          let m := firstn (length s - length s') s in
          match m, s with
          | [], [] => [[]]
          | [], _ :: t => [] :: findall_go r k t
          | _, _ => m :: findall_go r k s'
          end
      | [] => match s with [] => [] | _ :: t => findall_go r k t end
      end
  end.

Definition re_findall (r : regex) (s : str) : list str := findall_go r (S (length s)) s.

Definition ch (c : ascii) : regex := RChar (ascii_eqb c).
Definition word_re (w : string) : regex :=
  fold_right (fun c r => RSeq (ch c) r) REps (lit w).
Definition alts (rs : list regex) : regex :=
  match rs with [] => RChar (fun _ => false) | r :: rs' => fold_left RAlt rs' r end.
Definition plus (r : regex) : regex := RSeq r (RStar r).
Definition opt (r : regex) : regex := RAlt r REps.
Definition digit : regex := RChar is_digit.
Definition ws_re : regex := RChar is_ws.
(** [[-–]]: the en dash is outside ASCII, so only [-] is matched. *)
Definition dash : regex := ch "-".
Definition digit_comma : regex := RChar (fun c => is_digit c || ascii_eqb c ",").
Definition cents : regex := opt (RSeq (ch ".") (RSeq digit digit)).

(** [\$[\d,]+(?:\.\d{2})?(?:\s*[-–]\s*\$[\d,]+(?:\.\d{2})?)?
    (?:\s*(?:per|\/)\s*(?:hour|hr|year|yr|month|mo|week|wk))?] *)
Definition dollar_amount : regex := RSeq (ch "$") (RSeq (plus digit_comma) cents).
Definition dollar_range : regex :=
  opt (RSeq (RStar ws_re) (RSeq dash (RSeq (RStar ws_re) dollar_amount))).
Definition dollar_unit : regex :=
  opt (RSeq (RStar ws_re)
         (RSeq (alts [word_re "per"; ch "/"])
               (RSeq (RStar ws_re)
                     (alts (map word_re ["hour"; "hr"; "year"; "yr"; "month"; "mo"; "week"; "wk"]%string))))).
Definition dollar_pattern : regex := RSeq dollar_amount (RSeq dollar_range dollar_unit).

(** [\d+k\s*[-–]\s*\d+k], [\d{2,3},\d{3}] and
    [(?:salary|pay|hourly|rate|compensation).*?\d+]; they are searched in
    lowercased text, where [re.IGNORECASE] changes nothing. *)
Definition salary_patterns : list regex :=
  [ RSeq (plus digit) (RSeq (ch "k") (RSeq (RStar ws_re) (RSeq dash
      (RSeq (RStar ws_re) (RSeq (plus digit) (ch "k"))))));
    RSeq digit (RSeq digit (RSeq (opt digit) (RSeq (ch ",") (RSeq digit (RSeq digit digit)))));
    RSeq (alts (map word_re ["salary"; "pay"; "hourly"; "rate"; "compensation"]%string))
         (RSeq (RLazyStar (RChar (fun c => negb (ascii_eqb c "010"%char)))) (plus digit)) ].


(** ** The chunk store *)

(** A chunk record, [{'doc_id', 'doc_name', 'chunk_index', 'text',
    'metadata'}]; metadata values are kept as strings. *)
Record chunk_rec := mk_chunk {
  doc_id : str;
  doc_name : str;
  chunk_index : Z;
  text : str;
  metadata : list (str * str)
}.

(** The mapping chunk id -> chunk record, in dict order. *)
Definition store := list (str * chunk_rec).

(** The persisted mapping file [document_chunks.json]: absent, holding the
    JSON dump of a mapping ([json.dump] then [json.load] give the mapping
    back), or holding text [json.load] rejects. *)
Inductive chunks_file :=
| NoFile
| JsonFile (s : store)
| Malformed.

(** The persistent state: the mapping file and the [uploaded_documents]
    directory (file name -> bytes). *)
Record state := mk_state {
  chunks_file_of : chunks_file;
  documents_dir : list (str * list Byte.byte)
}.

(** [load_all_chunks()]. *)
Definition load_all_chunks (st : state) : store :=
  match chunks_file_of st with
  | NoFile => []
  | JsonFile s => s
  | Malformed => []
  end.

(** [save_all_chunks(chunks)]. *)
Definition save_all_chunks (s : store) (st : state) : state :=
  mk_state (JsonFile s) (documents_dir st).

(** ** Scoring: [simple_search] *)

Definition Qpos (q : Q) : bool := negb (Qle_bool q 0).

Definition nat_Q (n : nat) : Q := inject_Z (Z.of_nat n).

(** One iteration of [for word in query_words:]. *)
Definition term_step (original_words text_words : list str) (text : str)
  (acc : Q * list str) (word : str) : Q * list str :=
  let '(score, matches) := acc in
  if is_stopword word then acc
  else if mem_str word text_words then
    let weight := ((if mem_str word original_words then 3 else 1)
                   * (1 + nat_Q (length word) / 10))%Q in
    let count := str_count word text in
    ((score + nat_Q count * weight)%Q, matches ++ [word])
  else if 3 <? length word then
    match find (fun text_word => is_sub word text_word || is_sub text_word word) text_words with
    | Some text_word =>
        ((score + if mem_str word original_words then 3#2 else 1#2)%Q,
         matches ++ [word ++ lit "~" ++ text_word])
    | None => acc
    end
  else acc.

Definition compensation_terms : list str :=
  map lit ["compensation"; "salary"; "pay"; "wage"]%string.

(** The special patterns for compensation queries. *)
Definition domain_boost (original_words : list str) (text : str) (acc : Q * list str)
  : Q * list str :=
  let '(score, matches) := acc in
  if existsb (fun w => mem_str w original_words) compensation_terms then
    let dollar_matches := re_findall dollar_pattern text in
    let '(score1, matches1) :=
      match dollar_matches with
      | [] => (score, matches)
      | _ => ((score + nat_Q (length dollar_matches) * 10)%Q, matches ++ dollar_matches)
      end in
    (fold_left (fun sc pattern => if re_search pattern text then (sc + 5)%Q else sc)
               salary_patterns score1, matches1)
  else acc.

Fixpoint insert_nat (x : nat) (l : list nat) : list nat :=
  match l with
  | [] => [x]
  | y :: r => if x <=? y then x :: y :: r else y :: insert_nat x r
  end.

(** [positions.sort()]. *)
Definition sort_nat (l : list nat) : list nat := fold_right insert_nat [] l.

(** [for i in range(len(positions) - 1): if positions[i+1] - positions[i] < 50]. *)
Fixpoint adjacent_close (l : list nat) : bool :=
  match l with
  | p :: ((q :: _) as r) => (Z.of_nat q - Z.of_nat p <? 50)%Z || adjacent_close r
  | _ => false
  end.

(** The positions of all occurrences of all original terms. *)
Definition all_positions (original_words : list str) (text : str) : list nat :=
  flat_map (fun w => occurrences w text) original_words.

(** The phrase-proximity boost. *)
Definition proximity_boost (query : str) (original_words : list str) (text : str) (score : Q)
  : Q :=
  if 1 <? length original_words then
    if is_sub (lower query) text then (score * 3)%Q
    else
      let positions := all_positions original_words text in
      if 2 <=? length positions then
        if adjacent_close (sort_nat positions) then (score * (3#2))%Q else score
      else score
  else score.

(** The term-overlap part of the score: the loop over the expanded terms. *)
Definition term_scores (original_words text_words : list str) (text : str)
  (query_words : list str) : Q * list str :=
  fold_left (term_step original_words text_words text) query_words (0%Q, []).

(** Score and match list of one chunk. *)
Definition score_chunk (query : str) (original_words query_words : list str) (c : chunk_rec)
  : Q * list str :=
  let text := lower (text c) in
  let text_words := to_set (findall_words text) in
  let acc1 := term_scores original_words text_words text query_words in
  let acc2 := domain_boost original_words text acc1 in
  (proximity_boost query original_words text (fst acc2), snd acc2).

Record search_result := mk_result {
  res_chunk_id : str;
  res_doc_id : str;
  res_doc_name : str;
  res_text : str;
  res_score : Q;
  res_matches : list str;
  res_metadata : list (str * str)
}.

(** Insertion into a list sorted by descending score, after the entries of
    equal score (the sort is stable, as Python's). *)
Fixpoint insert_desc (x : search_result) (l : list search_result) : list search_result :=
  match l with
  | [] => [x]
  | y :: r => if Qle_bool (res_score x) (res_score y) then y :: insert_desc x r else x :: y :: r
  end.

(** [results.sort(key=lambda x: x['score'], reverse=True)]. *)
Definition sort_results (l : list search_result) : list search_result :=
  fold_left (fun acc x => insert_desc x acc) l [].

Definition scored_results (query : str) (all_chunks : store) : list search_result :=
  let query_words := expand_query_with_synonyms query in
  let original := original_words query in
  flat_map (fun '(cid, c) =>
              let '(score, matches) := score_chunk query original query_words c in
              if Qpos score
              then [mk_result cid (doc_id c) (doc_name c) (text c) score
                              (firstn 10 matches) (metadata c)]
              else [])
           all_chunks.

(** [simple_search(query, top_k)] on a loaded mapping. *)
Definition search_store (query : str) (top_k : Z) (all_chunks : store) : list search_result :=
  match all_chunks with
  | [] => []
  | _ => py_slice (sort_results (scored_results query all_chunks)) 0 top_k
  end.

Definition simple_search (query : str) (top_k : Z) (st : state) : list search_result :=
  search_store query top_k (load_all_chunks st).


(** ** Context assembly: [get_context_for_query] *)

Definition newline : ascii := Ascii.ascii_of_nat 10.

(** [f"[From: {doc_name}]\n{text}"]. *)
Definition context_part (doc_name t : str) : str :=
  lit "[From: " ++ doc_name ++ lit "]" ++ [newline] ++ t.

(** ["\n\n---\n\n"]. *)
Definition context_separator : str := [newline; newline] ++ lit "---" ++ [newline; newline].

(** The loop over the results with its running count [total_chars]. *)
Fixpoint assemble_parts (max_chars total_chars : Z) (results : list (str * str)) : list str :=
  match results with
  | [] => []
  | (doc_name, t) :: rest =>
      if (max_chars <? total_chars + Z.of_nat (length t))%Z then
        let remaining := (max_chars - total_chars)%Z in
        if (100 <? remaining)%Z then
          let t' := py_slice t 0 remaining ++ lit "..." in
          context_part doc_name t'
            :: assemble_parts max_chars (total_chars + Z.of_nat (length t')) rest
        else []
      else context_part doc_name t
             :: assemble_parts max_chars (total_chars + Z.of_nat (length t)) rest
  end.

(** [get_context_for_query(query, max_chunks, max_chars)] after retrieval:
    [results] are the [(doc_name, text)] of the entries
    [semantic_search_with_gemini(query, top_k=max_chunks)] returned (its
    keyword results, or a random sample of stored chunks when there are
    none). *)
Definition assemble_context (results : list (str * str)) (max_chars : Z) : str :=
  match results with
  | [] => []
  | _ => join context_separator (assemble_parts max_chars 0 results)
  end.

(** ** Content hash: [hashlib.md5(content).hexdigest()] (RFC 1321) *)

Module MD5.

Definition modulus : Z := 2 ^ 32.
Definition mask : Z := modulus - 1.
Definition add32 (a b : Z) : Z := (a + b) mod modulus.
Definition not32 (x : Z) : Z := Z.lxor x mask.
Definition rotl32 (x c : Z) : Z :=
  Z.lor (Z.land (Z.shiftl x c) mask) (Z.shiftr x (32 - c)).

(** [K[i] = floor(abs(sin(i + 1)) * 2^32)]. *)
Definition K : list Z := [
  3614090360; 3905402710; 606105819; 3250441966; 4118548399; 1200080426;
  2821735955; 4249261313; 1770035416; 2336552879; 4294925233; 2304563134;
  1804603682; 4254626195; 2792965006; 1236535329; 4129170786; 3225465664;
  643717713; 3921069994; 3593408605; 38016083; 3634488961; 3889429448;
  568446438; 3275163606; 4107603335; 1163531501; 2850285829; 4243563512;
  1735328473; 2368359562; 4294588738; 2272392833; 1839030562; 4259657740;
  2763975236; 1272893353; 4139469664; 3200236656; 681279174; 3936430074;
  3572445317; 76029189; 3654602809; 3873151461; 530742520; 3299628645;
  4096336452; 1126891415; 2878612391; 4237533241; 1700485571; 2399980690;
  4293915773; 2240044497; 1873313359; 4264355552; 2734768916; 1309151649;
  4149444226; 3174756917; 718787259; 3951481745
]%Z.

Definition shifts : list Z :=
  [7; 12; 17; 22; 7; 12; 17; 22; 7; 12; 17; 22; 7; 12; 17; 22;
   5; 9; 14; 20; 5; 9; 14; 20; 5; 9; 14; 20; 5; 9; 14; 20;
   4; 11; 16; 23; 4; 11; 16; 23; 4; 11; 16; 23; 4; 11; 16; 23;
   6; 10; 15; 21; 6; 10; 15; 21; 6; 10; 15; 21; 6; 10; 15; 21]%Z.

(** The [n] bytes of [x], least significant first. *)
Fixpoint le_bytes (n : nat) (x : Z) : list Z :=
  match n with
  | O => []
  | S k => (x mod 256)%Z :: le_bytes k (x / 256)%Z
  end.

(** The message, padded with [0x80], zeros and its bit length. *)
Definition pad (msg : list Z) : list Z :=
  let len := length msg in
  let zeros := (119 - len mod 64) mod 64 in
  msg ++ [128%Z] ++ repeat 0%Z zeros ++ le_bytes 8 (Z.of_nat len * 8).

Definition word_at (block : list Z) (g : nat) : Z :=
  fold_right (fun b acc => b + 256 * acc)%Z 0%Z (firstn 4 (skipn (4 * g) block)).

(** The 64 rounds over one block, from the registers [(a, b, c, d)]. *)
Fixpoint rounds (block : list Z) (i fuel : nat) (a b c d : Z) : Z * Z * Z * Z :=
  match fuel with
  | O => (a, b, c, d)
  | S k =>
      let '(f, g) :=
        if i <? 16 then (Z.lor (Z.land b c) (Z.land (not32 b) d), i)
        else if i <? 32 then (Z.lor (Z.land d b) (Z.land (not32 d) c), (5 * i + 1) mod 16)
        else if i <? 48 then (Z.lxor b (Z.lxor c d), (3 * i + 5) mod 16)
        else (Z.lxor c (Z.lor b (not32 d)), (7 * i) mod 16) in
      let f := add32 (add32 (add32 f a) (nth i K 0%Z)) (word_at block g) in
      rounds block (S i) k d (add32 b (rotl32 f (nth i shifts 0%Z))) b c
  end.

Fixpoint blocks (fuel : nat) (m : list Z) (a0 b0 c0 d0 : Z) : Z * Z * Z * Z :=
  match fuel with
  | O => (a0, b0, c0, d0)
  | S k =>
      match m with
      | [] => (a0, b0, c0, d0)
      | _ =>
          let '(a, b, c, d) := rounds (firstn 64 m) 0 64 a0 b0 c0 d0 in
          blocks k (skipn 64 m) (add32 a0 a) (add32 b0 b) (add32 c0 c) (add32 d0 d)
      end
  end.

Definition hex_digit (n : Z) : ascii :=
  if (n <? 10)%Z then ascii_of_nat (48 + Z.to_nat n) else ascii_of_nat (87 + Z.to_nat n).

Definition hex_byte (b : Z) : str := [hex_digit (b / 16)%Z; hex_digit (b mod 16)%Z].

Definition digest (msg : list Z) : list Z :=
  let m := pad msg in
  let '(a, b, c, d) :=
    blocks (length m) m 1732584193 4023233417 2562383102 271733878 in
  le_bytes 4 a ++ le_bytes 4 b ++ le_bytes 4 c ++ le_bytes 4 d.

Definition hexdigest (content : list Byte.byte) : str :=
  flat_map hex_byte (digest (map (fun b => Z.of_N (Byte.to_N b)) content)).

End MD5.

(** [compute_file_hash(content)]. *)
Definition compute_file_hash (content : list Byte.byte) : str := MD5.hexdigest content.

(** The semantic search, then the full context query.
    [semantic_search_with_gemini(query, top_k)] returns [[]] on an empty
    mapping, the first [top_k] keyword results when [simple_search(query,
    top_k=20)] has some, and otherwise [random.sample] of the stored chunk
    records: [min(top_k, len)] distinct entries, in any order ([random.sample]
    raises [ValueError] for a negative count, so there is no result then).
    Only the [doc_name] and [text] of each entry are read afterwards. *)
Inductive sublist {A} : list A -> list A -> Prop :=
| sublist_nil : sublist [] []
| sublist_skip x l l' : sublist l l' -> sublist l (x :: l')
| sublist_keep x l l' : sublist l l' -> sublist (x :: l) (x :: l').

Definition result_entry (r : search_result) : str * str := (res_doc_name r, res_text r).
Definition chunk_entry (c : chunk_rec) : str * str := (doc_name c, text c).

Inductive semantic_search_with_gemini (query : str) (top_k : Z) (st : state)
  : list (str * str) -> Prop :=
| semantic_empty :
    load_all_chunks st = [] ->
    semantic_search_with_gemini query top_k st []
| semantic_keyword r rs :
    load_all_chunks st <> [] ->
    simple_search query 20 st = r :: rs ->
    semantic_search_with_gemini query top_k st (map result_entry (py_slice (r :: rs) 0 top_k))
| semantic_sample picked sub :
    load_all_chunks st <> [] ->
    simple_search query 20 st = [] ->
    (0 <= top_k)%Z ->
    sublist sub (map snd (load_all_chunks st)) ->
    Permutation picked sub ->
    length picked = Nat.min (Z.to_nat top_k) (length (load_all_chunks st)) ->
    semantic_search_with_gemini query top_k st (map chunk_entry picked).

(** [get_context_for_query(query, max_chunks, max_chars)]: the outcomes the
    random fallback allows. *)
Definition get_context_for_query (query : str) (max_chunks max_chars : Z) (st : state)
  (out : str) : Prop :=
  exists results, semantic_search_with_gemini query max_chunks st results
                  /\ out = assemble_context results max_chars.

(** ** Uploads, deletion and listing *)

(** [Path(p).suffix]: the final component's text from its last dot, when
    that dot is neither its first nor its last character. *)
Fixpoint path_name_go (cur s : str) : str :=
  match s with
  | [] => rev cur
  | c :: s' => if ascii_eqb c "/"%char then path_name_go [] s' else path_name_go (c :: cur) s'
  end.

Definition path_name (p : str) : str := path_name_go [] p.

Fixpoint rfind_go (c : ascii) (i : nat) (s : str) (found : option nat) : option nat :=
  match s with
  | [] => found
  | d :: s' => rfind_go c (S i) s' (if ascii_eqb c d then Some i else found)
  end.

Definition rfind (c : ascii) (s : str) : option nat := rfind_go c 0 s None.

Definition path_suffix (p : str) : str :=
  let name := path_name p in
  match rfind "."%char name with
  | Some i => if (0 <? i) && (i <? length name - 1) then skipn i name else []
  | None => []
  end.

(** [re.sub(r'[^\w\-_\.]', '_', filename)]. *)
Definition safe_char (c : ascii) : ascii :=
  if is_word_char c || ascii_eqb c "-"%char || ascii_eqb c "."%char then c else "_"%char.

Definition safe_filename (filename : str) : str := map safe_char filename.

(** [str(i)] for a natural number. *)
Definition str_of_nat (n : nat) : str :=
  lit (DecimalString.NilEmpty.string_of_uint (Nat.to_uint n)).

(** The text extractors [extract_text_from_file] calls: the decoding
    [bytes.decode('utf-8', errors='ignore')], and the optional packages
    ([None] when the import raises [ImportError]), each giving the text of
    its pages or paragraphs, or the message of the exception it raised. *)
Record extractors := mk_extractors {
  utf8_decode : list Byte.byte -> str;
  pypdf : option (list Byte.byte -> list str + str);
  python_docx : option (list Byte.byte -> list str + str)
}.

Definition error_text (e : str) : str := lit "[Error extracting text: " ++ e ++ lit "]".

Definition lines_text (parts : list str) : str := flat_map (fun p => p ++ [newline]) parts.

(** [extract_text_from_file(path, content, file_type)] as [save_document]
    calls it: [content] is also what was just written to [path], so reading
    the file back when [content] is empty reads the same bytes. *)
Definition extract_text_from_file (ex : extractors) (content : list Byte.byte)
  (file_type : str) : str :=
  if mem_str file_type [lit ".txt"; lit ".md"; lit ".csv"] then utf8_decode ex content
  else if str_eqb file_type (lit ".pdf") then
    match pypdf ex with
    | None => lit "[PDF support requires pypdf package. Install with: pip install pypdf]"
    | Some read =>
        match read content with
        | inl pages => lines_text pages
        | inr e => error_text e
        end
    end
  else if mem_str file_type [lit ".docx"; lit ".doc"] then
    match python_docx ex with
    | None => lit "[DOCX support requires python-docx package. Install with: pip install python-docx]"
    | Some read =>
        match read content with
        | inl paras => lines_text paras
        | inr e => error_text e
        end
    end
  else utf8_decode ex content.

(** [d[k] = v] on a dict: an existing key keeps its place, a new key goes
    last. *)
Fixpoint dict_set {V} (k : str) (v : V) (d : list (str * V)) : list (str * V) :=
  match d with
  | [] => [(k, v)]
  | (k', v') :: d' => if str_eqb k k' then (k, v) :: d' else (k', v') :: dict_set k v d'
  end.

Definition chunk_id (file_hash : str) (i : nat) : str := file_hash ++ lit "_" ++ str_of_nat i.

(** The loop [for i, chunk in enumerate(chunks)] of [save_document]. *)
Fixpoint add_chunks (file_hash filename : str) (meta : list (str * str)) (i : nat)
  (chunks : list str) (all_chunks : store) : store :=
  match chunks with
  | [] => all_chunks
  | c :: rest =>
      add_chunks file_hash filename meta (S i) rest
        (dict_set (chunk_id file_hash i) (mk_chunk file_hash filename (Z.of_nat i) c meta) all_chunks)
  end.

Record doc_info := mk_doc_info {
  info_id : str;
  info_filename : str;
  info_file_path : str;
  info_file_type : str;
  info_metadata : list (str * str);
  info_chunk_count : nat;
  info_total_chars : nat
}.

(** [save_document(filename, content, metadata)]; [None] when [chunk_text]
    does not terminate (it always does: see [chunk_text_nonempty_sentences]).
    [metadata] is [None] for the default, and [metadata or {}] maps it and
    an empty dict alike to [{}]. *)
Definition save_document (ex : extractors) (filename : str) (content : list Byte.byte)
  (metadata : option (list (str * str))) (st : state) : option (doc_info * state) :=
  let file_hash := compute_file_hash content in
  let file_ext := lower (path_suffix filename) in
  let stored_name := file_hash ++ lit "_" ++ safe_filename filename in
  let st1 := mk_state (chunks_file_of st) (dict_set stored_name content (documents_dir st)) in
  let text0 := extract_text_from_file ex content file_ext in
  match chunk_text text0 250 50 with
  | None => None
  | Some chunks =>
      let all_chunks := load_all_chunks st1 in
      let meta := match metadata with Some m => m | None => [] end in
      let info := mk_doc_info file_hash filename (lit "uploaded_documents/" ++ stored_name)
                    file_ext meta (length chunks) (length text0) in
      Some (info, save_all_chunks (add_chunks file_hash filename meta 0 chunks all_chunks) st1)
  end.

(** [delete_document(doc_id)]. The glob [f"{doc_id}_*"] is read as the
    name prefix [doc_id_], which is what it matches when [doc_id] has no glob
    metacharacter ([*], [?], [[]) and no [/]; every id [save_document] gives
    is a hex digest. For other ids the model is not the code: [pathlib]
    matches the metacharacters as patterns, and raises for an absolute
    pattern once the mapping has been saved. The chunk mapping and the
    returned flag do not depend on the glob. *)
Definition delete_document (d : str) (st : state) : bool * state :=
  let all_chunks := load_all_chunks st in
  let to_remove := filter (fun '(_, c) => str_eqb (doc_id c) d) all_chunks in
  let kept := filter (fun '(_, c) => negb (str_eqb (doc_id c) d)) all_chunks in
  let st1 := save_all_chunks kept st in
  let dir := filter (fun '(name, _) => negb (is_prefix (d ++ lit "_") name)) (documents_dir st1) in
  (0 <? length to_remove, mk_state (chunks_file_of st1) dir).

Record doc_summary := mk_summary {
  sum_id : str;
  sum_filename : str;
  sum_chunk_count : nat;
  sum_metadata : list (str * str)
}.

(** One step of the grouping loop of [get_all_documents]. *)
Fixpoint group_add (docs : list doc_summary) (c : chunk_rec) : list doc_summary :=
  match docs with
  | [] => [mk_summary (doc_id c) (doc_name c) 1 (metadata c)]
  | d :: rest =>
      if str_eqb (sum_id d) (doc_id c)
      then mk_summary (sum_id d) (sum_filename d) (S (sum_chunk_count d)) (sum_metadata d) :: rest
      else d :: group_add rest c
  end.

(** [get_all_documents()]. *)
Definition get_all_documents (st : state) : list doc_summary :=
  fold_left (fun docs '(_, c) => group_add docs c) (load_all_chunks st) [].

(** [has_uploaded_documents()]. *)
Definition has_uploaded_documents (st : state) : bool :=
  match load_all_chunks st with [] => false | _ => true end.

(** An extractor set for the examples: ASCII bytes decode to themselves
    (other bytes are left out), and neither optional package is installed. *)
Definition ascii_extractors : extractors :=
  mk_extractors
    (fun bs => map (fun b => ascii_of_N (Byte.to_N b))
                   (filter (fun b => N.ltb (Byte.to_N b) 128) bs))
    None None.

Definition empty_state : state := mk_state NoFile [].

(** [d.get(k)] on a dict. *)
Fixpoint dict_get {V} (k : str) (d : list (str * V)) : option V :=
  match d with
  | [] => None
  | (k', v) :: d' => if str_eqb k k' then Some v else dict_get k d'
  end.

(** ** The caller [classify_question] (src/ai_utils.py) *)

Inductive question_type := QDatabase | QDocument | QGeneral.

Definition db_keywords : list str := map lit [
  "how many"; "count"; "list"; "show"; "display"; "find"; "search";
  "who is"; "who are"; "which employees"; "what employees";
  "average salary"; "total salary"; "highest paid"; "lowest paid";
  "employees in"; "employee named"; "is there"; "are there";
  "department has"; "hired"; "joined"; "transferred"; "feedback";
  "rating"; "performance"; "top"; "bottom"; "recent"; "latest"
]%string.

Definition doc_keywords : list str := map lit [
  "policy"; "procedure"; "rule"; "guideline"; "training"; "manual";
  "handbook"; "document"; "according to"; "based on"; "what does";
  "compliance"; "regulation"; "process"; "step"; "instruction";
  "protocol"; "standard"; "requirement"; "uploaded"; "file"
]%string.

(** [classify_question(user_question)]; [rag_available] is [RAG_AVAILABLE]
    (the import of [document_processor] succeeded). *)
Definition classify_question (rag_available : bool) (user_question : str) (st : state)
  : question_type :=
  let question_lower := lower user_question in
  let by_keywords :=
    if existsb (fun k => is_sub k question_lower) db_keywords then QDatabase else QGeneral in
  if rag_available && has_uploaded_documents st then
    if existsb (fun k => is_sub k question_lower) doc_keywords then QDocument
    else match simple_search user_question 1 st with
         | r :: _ => if negb (Qle_bool (res_score r) 5) then QDocument else by_keywords
         | [] => by_keywords
         end
  else by_keywords.

(** ** Statements of the specification *)

(** The per-term contribution as the specification words it: an expanded
    term found among the chunk's tokens adds [occurrenceCount * baseWeight *
    (1 + termLength/10)], [baseWeight] 3 for an original term and 1 for
    another; a longer term (over 3 characters) without exact match that is
    a substring of a token, or contains one, adds 1.5 (original) or 0.5. *)
Definition term_contribution_spec (original_words text_words : list str) (text w : str) : Q :=
  if mem_str w text_words then
    (nat_Q (str_count w text)
     * ((if mem_str w original_words then 3 else 1) * (1 + nat_Q (length w) / 10)))%Q
  else if (3 <? length w)
          && existsb (fun tw => is_sub w tw || is_sub tw w) text_words then
    (if mem_str w original_words then 3#2 else 1#2)
  else 0%Q.

(** Every word of the synonym table, keys and synonyms. *)
Definition table_words : list str := flat_map (fun '(k, vs) => k :: vs) HR_SYNONYMS.

(** Two distinct entries of a list of positions less than 50 apart. *)
Fixpoint has_close_pair (l : list nat) : bool :=
  match l with
  | [] => false
  | p :: r => existsb (fun q => Z.abs (Z.of_nat p - Z.of_nat q) <? 50)%Z r || has_close_pair r
  end.

(** Two distinct occurrences of original terms (of one term or of two
    terms) start less than 50 characters apart. *)
Definition close_occurrence_pair (original_words : list str) (text : str) : Prop :=
  exists a b c p q, all_positions original_words text = a ++ p :: b ++ q :: c
                    /\ (Z.abs (Z.of_nat p - Z.of_nat q) < 50)%Z.

(** The specification's condition: occurrences of two different original
    terms start less than 50 characters apart. *)
Definition different_term_pair (original_words : list str) (text : str) : Prop :=
  exists w1 w2 p1 p2, w1 <> w2 /\ In w1 original_words /\ In w2 original_words
                      /\ In p1 (occurrences w1 text) /\ In p2 (occurrences w2 text)
                      /\ (Z.abs (Z.of_nat p1 - Z.of_nat p2) < 50)%Z.

(** The score of a chunk before the phrase-proximity boost. *)
Definition score_before_proximity (query : str) (c : chunk_rec) : Q :=
  let ow := original_words query in
  let text := lower (text c) in
  fst (domain_boost ow text
         (term_scores ow (to_set (findall_words text)) text (expand_query_with_synonyms query))).

(** A two-term query and a chunk that repeats one of the terms. *)
Definition repeat_query : str := lit "salary benefits".
Definition repeat_chunk : chunk_rec :=
  mk_chunk (lit "h") (lit "policy.txt") 0 (lit "Salary salary") [].

(** Context assembly as the specification words it: chunks are added while
    the running count stays within [max_chars]; the first chunk that would
    overflow is included as a prefix of the remaining budget followed by
    ["..."] when more than 100 characters of budget remain, and assembly
    stops there, or before it otherwise. *)
Fixpoint assemble_parts_spec (max_chars total_chars : Z) (results : list (str * str))
  : list str :=
  match results with
  | [] => []
  | (doc_name, t) :: rest =>
      if (total_chars + Z.of_nat (length t) <=? max_chars)%Z then
        context_part doc_name t
          :: assemble_parts_spec max_chars (total_chars + Z.of_nat (length t)) rest
      else if (100 <? max_chars - total_chars)%Z then
        [context_part doc_name (firstn (Z.to_nat (max_chars - total_chars)) t ++ lit "...")]
      else []
  end.

(** A chunk text of 200 characters. *)
Definition text_200 : str := repeat "a"%char 200.

(** ** Definitions used in the proofs *)

Definition nows (c : ascii) : bool := negb (is_ws c).

(** A word produced by [str.split()]: non-empty, without whitespace. *)
Definition good_word (w : str) : Prop := w <> [] /\ forallb nows w = true.

(** Consecutive elements of a list related by [R]. *)
Fixpoint chain {A} (R : A -> A -> Prop) (l : list A) : Prop :=
  match l with
  | x :: ((y :: _) as t) => R x y /\ chain R t
  | _ => True
  end.

(** The next chunk begins with the last [overlap] words of the previous one. *)
Definition seeded (overlap : Z) (c1 c2 : str) : Prop :=
  exists rest, split_ws c2 = last_n (split_ws c1) (Z.to_nat overlap) ++ rest.

(** The invariant of the packing loop. *)
Definition pack_inv (overlap : Z) (st : pack_state) : Prop :=
  chain (seeded overlap) (chunks st) /\
  (chunks st <> [] ->
   exists rest, concat (map split_ws (current_chunk st))
                = last_n (split_ws (last (chunks st) [])) (Z.to_nat overlap) ++ rest).

(** The distance test of the proximity boost. *)
Definition close_nat (p q : nat) : bool := (Z.abs (Z.of_nat p - Z.of_nat q) <? 50)%Z.

(** The matches recorded for one term. *)
Definition term_markers (text_words : list str) (w : str) : list str :=
  if mem_str w text_words then [w]
  else if 3 <? length w then
    match find (fun tw => is_sub w tw || is_sub tw w) text_words with
    | Some tw => [w ++ lit "~" ++ tw]
    | None => []
    end
  else [].

(** The words of a chunk sequence with the overlap seed of every chunk
    after the first left out: the seed of a chunk is the last [overlap]
    words of its predecessor (none when [overlap <= 0]). *)
Fixpoint unseeded_go (overlap : Z) (prev : list str) (cs : list str) : list str :=
  match cs with
  | [] => []
  | c :: rest =>
      skipn (length (last_n prev (Z.to_nat overlap))) (split_ws c)
        ++ unseeded_go overlap (split_ws c) rest
  end.

Definition unseeded_words (overlap : Z) (cs : list str) : list str :=
  match cs with
  | [] => []
  | c :: rest => split_ws c ++ unseeded_go overlap (split_ws c) rest
  end.

(** Non-increasing scores. *)
Definition score_ge (a b : search_result) : Prop := (res_score b <= res_score a)%Q.

(** The characters of a lowercase hex digest. *)
Definition hex_chars : str := lit "0123456789abcdef".

(** The words a chunk adds after the chunks [cs] once the overlap seed is
    removed. *)
Definition tailw (ov : Z) (cs : list str) (x : str) : list str :=
  match cs with
  | [] => split_ws x
  | _ => skipn (length (last_n (split_ws (last cs [])) (Z.to_nat ov))) (split_ws x)
  end.

(** The words of a list of texts. *)
Definition words_of (l : list str) : list str := concat (map split_ws l).

(** The invariant of the packing loop for the words of the sentences
    consumed so far. *)
Definition pack_words_inv (ov : Z) (st : pack_state) (done : list str) : Prop :=
  unseeded_words ov (close_current (chunks st) (current_chunk st)) = words_of done
  /\ (chunks st <> [] -> (0 < ov)%Z ->
      exists rest, words_of (current_chunk st)
                   = last_n (split_ws (last (chunks st) [])) (Z.to_nat ov) ++ rest).

(** A mapping with one stored chunk, for the examples. *)
Definition example_state : state :=
  mk_state (JsonFile [(lit "d1_0", mk_chunk (lit "d1") (lit "leave.txt") 0
                        (lit "Annual leave policy: every employee gets twenty days of paid leave.") [])])
           [].

(** Uploading the bytes ["hello. world."] as [notes.txt] to an empty store. *)
Definition example_upload : option (doc_info * state) :=
  save_document ascii_extractors (lit "notes.txt")
    (list_byte_of_string "hello. world.") None empty_state.

(** ** Chunker lemmas *)

Lemma split_go_app_ws : forall a cur c b,
  is_ws c = true ->
  split_go cur (a ++ c :: b) = split_go cur a ++ split_go [] b.
Proof.
  induction a as [|x a IH]; intros cur c b Hc; simpl.
  - rewrite Hc. destruct cur; reflexivity.
  - destruct (is_ws x).
    + destruct cur; [apply IH | simpl; f_equal]; auto.
    + apply IH; auto.
Qed.

Lemma split_ws_join : forall l,
  split_ws (join space l) = concat (map split_ws l).
Proof.
  induction l as [|x [|y r] IH].
  - reflexivity.
  - simpl. rewrite app_nil_r. reflexivity.
  - change (join space (x :: y :: r)) with (x ++ " "%char :: join space (y :: r)).
    unfold split_ws in *. rewrite split_go_app_ws by reflexivity.
    rewrite IH. reflexivity.
Qed.

Lemma split_go_good : forall s cur,
  forallb nows cur = true -> Forall good_word (split_go cur s).
Proof.
  induction s as [|c s IH]; intros cur Hcur; simpl.
  - destruct cur as [|a cur]; constructor; [|constructor].
    split.
    + intro H. apply (f_equal (@length ascii)) in H. rewrite length_rev in H.
      simpl in H. discriminate.
    + rewrite forallb_forall in *. intros x Hx. apply Hcur. apply in_rev. exact Hx.
  - destruct (is_ws c) eqn:Hc.
    + destruct cur as [|a cur].
      * apply IH. reflexivity.
      * constructor; [|apply IH; reflexivity].
        split.
        -- intro H. apply (f_equal (@length ascii)) in H. rewrite length_rev in H.
           simpl in H. discriminate.
        -- rewrite forallb_forall in *. intros x Hx. apply Hcur. apply in_rev. exact Hx.
    + apply IH. simpl. unfold nows at 1. rewrite Hc. exact Hcur.
Qed.

Lemma split_ws_good : forall s, Forall good_word (split_ws s).
Proof. intro s. apply split_go_good. reflexivity. Qed.

Lemma split_go_word : forall w cur,
  forallb nows w = true -> rev cur ++ w <> [] -> split_go cur w = [rev cur ++ w].
Proof.
  induction w as [|c w IH]; intros cur Hw Hne; simpl.
  - rewrite app_nil_r in *. destruct cur; [contradiction|reflexivity].
  - simpl in Hw. apply andb_prop in Hw as [Hc Hw]. unfold nows in Hc.
    destruct (is_ws c); [discriminate|].
    rewrite IH by (simpl; auto; intro H; apply app_eq_nil in H as [H _];
                   apply app_eq_nil in H as [_ H]; discriminate).
    simpl. rewrite <- app_assoc. reflexivity.
Qed.

Lemma split_ws_good_word : forall w, good_word w -> split_ws w = [w].
Proof.
  intros w [Hne Hw]. unfold split_ws. rewrite split_go_word; auto.
Qed.

Lemma split_ws_join_words : forall ws,
  Forall good_word ws -> split_ws (join space ws) = ws.
Proof.
  intros ws Hws. rewrite split_ws_join.
  induction Hws as [|w ws Hw _ IH]; [reflexivity|].
  simpl. rewrite split_ws_good_word by exact Hw. simpl. f_equal. exact IH.
Qed.

Lemma Forall_last_n : forall {A} (P : A -> Prop) l k, Forall P l -> Forall P (last_n l k).
Proof.
  intros A P l k H. unfold last_n.
  rewrite <- (firstn_skipn (length l - k) l) in H.
  apply Forall_app in H. apply H.
Qed.

Lemma last_n_split : forall {A} (l : list A) k,
  exists pre, l = pre ++ last_n l k /\ length (last_n l k) = Nat.min k (length l).
Proof.
  intros A l k. exists (firstn (length l - k) l). split.
  - unfold last_n. symmetry. apply firstn_skipn.
  - unfold last_n. rewrite length_skipn. lia.
Qed.

Lemma chain_snoc : forall {A} (R : A -> A -> Prop) l y d,
  chain R l -> (l <> [] -> R (last l d) y) -> chain R (l ++ [y]).
Proof.
  intros A R l y d. induction l as [|x l IH]; intros Hc Hl; [exact I|].
  destruct l as [|x' l].
  - simpl. split; [apply Hl; discriminate | exact I].
  - simpl in Hc |- *. destruct Hc as [Hxy Hc]. split; [exact Hxy|].
    apply IH; [exact Hc|]. intros _. apply Hl. discriminate.
Qed.

Lemma chain_nth : forall {A} (R : A -> A -> Prop) l i x y,
  chain R l -> nth_error l i = Some x -> nth_error l (S i) = Some y -> R x y.
Proof.
  intros A R l. induction l as [|a l IH]; intros i x y Hc Hx Hy.
  - destruct i; discriminate.
  - destruct l as [|b l]; [destruct i as [|[|i]]; discriminate|].
    destruct Hc as [Hab Hc]. destruct i as [|i].
    + simpl in Hx, Hy. injection Hx as <-. injection Hy as <-. exact Hab.
    + apply (IH i); assumption.
Qed.

Section Overlap.
Variables chunk_size overlap : Z.
Hypothesis overlap_pos : (0 < overlap)%Z.

Lemma close_chunk_chain : forall st,
  pack_inv overlap st ->
  chain (seeded overlap) (close_current (chunks st) (current_chunk st)).
Proof.
  intros [cs cur n] [Hc Hcur]; cbn [chunks current_chunk] in *.
  unfold close_current. destruct cur as [|s0 cur]; [exact Hc|].
  apply chain_snoc with (d := []); [exact Hc|].
  intro Hne. destruct (Hcur Hne) as [rest Hr]. exists rest.
  rewrite split_ws_join. exact Hr.
Qed.

Lemma pack_step_inv : forall st s, pack_inv overlap st -> pack_inv overlap (pack_step chunk_size overlap st s).
Proof.
  intros st s Hinv. pose proof (close_chunk_chain st Hinv) as Hclose.
  destruct st as [cs cur n]. destruct Hinv as [Hc Hcur].
  unfold pack_step; cbn [chunks current_chunk current_word_count] in *.
  destruct (n + Z.of_nat (length (split_ws s)) <=? chunk_size)%Z.
  - split; [exact Hc|]. cbn [chunks current_chunk]. intro Hne. destruct (Hcur Hne) as [rest Hr].
    exists (rest ++ split_ws s). rewrite map_app, concat_app, Hr.
    simpl. rewrite app_nil_r, app_assoc. reflexivity.
  - destruct (close_current cs cur) as [|c0 cs''] eqn:Ecs.
    + split; cbn [chunks]; [exact I | intro H; contradiction].
    + assert (Hov : (0 <? overlap)%Z = true) by (apply Z.ltb_lt; exact overlap_pos).
      rewrite Hov. split; [exact Hclose|]. cbn [chunks current_chunk map concat]. intros _.
      exists (split_ws s). rewrite app_nil_r.
      rewrite split_ws_join_words; [reflexivity|].
      apply Forall_last_n, split_ws_good.
Qed.

Lemma pack_step_current : forall st s,
  current_chunk (pack_step chunk_size overlap st s) <> [].
Proof.
  intros [cs cur n] s. unfold pack_step; simpl.
  destruct (n + Z.of_nat (length (split_ws s)) <=? chunk_size)%Z; simpl.
  - destruct cur; discriminate.
  - destruct (close_current cs cur); [discriminate|]. destruct (0 <? overlap)%Z; discriminate.
Qed.

Lemma fold_pack_inv : forall l st,
  pack_inv overlap st -> pack_inv overlap (fold_left (pack_step chunk_size overlap) l st).
Proof.
  induction l as [|s l IH]; intros st H; simpl; [exact H|].
  apply IH, pack_step_inv, H.
Qed.

Lemma fold_pack_current : forall l st,
  current_chunk st <> [] \/ l <> [] ->
  current_chunk (fold_left (pack_step chunk_size overlap) l st) <> [].
Proof.
  induction l as [|s l IH]; intros st H; simpl.
  - destruct H as [H|H]; [exact H | contradiction].
  - apply IH. left. apply pack_step_current.
Qed.
End Overlap.

Lemma split_sent_go_nonempty : forall s prev sk cur, split_sent_go prev sk cur s <> [].
Proof.
  induction s as [|c s IH]; intros prev sk cur; simpl; [discriminate|].
  destruct (sk && is_ws c); [apply IH|].
  destruct (is_ws c && _); [discriminate | apply IH].
Qed.

Lemma ws_only_collapse : forall t b,
  forallb is_ws t = true -> forallb is_ws (collapse_ws b t) = true.
Proof.
  induction t as [|c t IH]; intros b H; simpl in *; [reflexivity|].
  apply andb_prop in H as [Hc Ht]. rewrite Hc.
  destruct b; [apply IH; exact Ht|]. simpl. rewrite IH by exact Ht. reflexivity.
Qed.

Lemma lstrip_ws_only : forall t, forallb is_ws t = true -> lstrip t = [].
Proof.
  induction t as [|c t IH]; intro H; simpl in *; [reflexivity|].
  apply andb_prop in H as [Hc Ht]. rewrite Hc. apply IH, Ht.
Qed.

Lemma chunk_text_nonempty_sentences : forall text0 cs ov,
  exists chunks_out, chunk_text text0 cs ov = Some chunks_out /\
    chunks_out = close_current
      (chunks (fold_left (pack_step cs ov) (split_sentences (strip (collapse_ws false text0)))
                 (mk_pack [] [] 0)))
      (current_chunk (fold_left (pack_step cs ov)
                        (split_sentences (strip (collapse_ws false text0))) (mk_pack [] [] 0))).
Proof.
  intros text0 cs ov. unfold chunk_text.
  set (text := strip (collapse_ws false text0)).
  pose proof (split_sent_go_nonempty text None false []) as Hne.
  unfold split_sentences.
  destruct (split_sent_go None false [] text) as [|s0 ss] eqn:Es; [contradiction|].
  assert (Hcur : current_chunk (fold_left (pack_step cs ov) (s0 :: ss) (mk_pack [] [] 0)) <> []).
  { apply fold_pack_current. right. discriminate. }
  destruct (fold_left (pack_step cs ov) (s0 :: ss) (mk_pack [] [] 0)) as [cs1 cur1 n1].
  cbn [current_chunk chunks] in *. unfold close_current.
  destruct cur1 as [|c cur1]; [contradiction|].
  destruct (cs1 ++ [join space (c :: cur1)]) eqn:E.
  - apply app_eq_nil in E as [_ E]. discriminate.
  - eexists; split; reflexivity.
Qed.

(** C1 (as the code behaves). For every text that is empty or whitespace
    only, and all parameters, [chunk_text] returns one empty chunk [[""]]:
    [re.split] yields [[""]], the loop packs that one empty sentence, and the
    final [if current_chunk:] appends it. *)
Theorem chunk_text_blank_gives_one_empty_chunk : forall text0 chunk_size overlap,
  forallb is_ws text0 = true -> chunk_text text0 chunk_size overlap = Some [[]].
Proof.
  intros text0 cs ov H.
  assert (Hs : strip (collapse_ws false text0) = []).
  { unfold strip. rewrite (lstrip_ws_only (collapse_ws false text0))
      by (apply ws_only_collapse; exact H). reflexivity. }
  unfold chunk_text. rewrite Hs. cbv [split_sentences split_sent_go rev fold_left].
  unfold pack_step. cbn [current_word_count chunks current_chunk].
  destruct (0 + Z.of_nat (length (split_ws [])) <=? cs)%Z; reflexivity.
Qed.

Lemma chunk_text_blank_gives_one_empty_chunk_witness :
  chunk_text (lit "  ") 250 50 = Some [[]].
Proof. apply chunk_text_blank_gives_one_empty_chunk. reflexivity. Defined.

(** C5. With [overlap = 50] (and any [chunk_size]), [chunk_text] returns a
    sequence of chunks in which every chunk after the first begins with the
    last [min(50, n)] words of its predecessor, [n] being the predecessor's
    word count. *)
Theorem chunk_text_overlap_50 : forall text0 chunk_size,
  exists out, chunk_text text0 chunk_size 50 = Some out /\
  forall i c1 c2, nth_error out i = Some c1 -> nth_error out (S i) = Some c2 ->
    exists pre shared rest,
      split_ws c1 = pre ++ shared /\ split_ws c2 = shared ++ rest /\
      length shared = Nat.min 50 (length (split_ws c1)).
Proof.
  intros text0 cs.
  destruct (chunk_text_nonempty_sentences text0 cs 50) as [out [Hout Eout]].
  exists out. split; [exact Hout|].
  assert (Hpos : (0 < 50)%Z) by lia.
  pose proof (fold_pack_inv cs 50 Hpos (split_sentences (strip (collapse_ws false text0)))
                (mk_pack [] [] 0) (conj I (fun H => False_ind _ (H eq_refl)))) as Hinv.
  pose proof (close_chunk_chain 50 _ Hinv) as Hchain.
  rewrite <- Eout in Hchain.
  intros i c1 c2 H1 H2.
  destruct (chain_nth _ out i c1 c2 Hchain H1 H2) as [rest Hr].
  destruct (last_n_split (split_ws c1) 50) as [pre [Hpre Hlen]].
  exists pre, (last_n (split_ws c1) 50), rest. auto.
Qed.

(** ** Search lemmas *)

Lemma str_eqb_spec : forall s t, str_eqb s t = true <-> s = t.
Proof.
  induction s as [|a s IH]; intros [|b t]; simpl; split; intro H; try discriminate; auto.
  - apply andb_prop in H as [Hab H]. unfold ascii_eqb in Hab.
    apply Ascii.eqb_eq in Hab. apply IH in H. subst. reflexivity.
  - injection H as <- <-. apply andb_true_intro. split.
    + apply Ascii.eqb_refl.
    + apply IH. reflexivity.
Qed.

Lemma mem_str_In : forall x l, mem_str x l = true <-> In x l.
Proof.
  intros x l. unfold mem_str. rewrite existsb_exists. split.
  - intros [y [Hy E]]. apply str_eqb_spec in E. subst. exact Hy.
  - intro H. exists x. split; [exact H | apply str_eqb_spec; reflexivity].
Qed.

Lemma fold_left_inv : forall {A B} (P : A -> Prop) (f : A -> B -> A) l a,
  P a -> (forall a x, In x l -> P a -> P (f a x)) -> P (fold_left f l a).
Proof.
  intros A B P f l. induction l as [|x l IH]; intros a Ha Hf; simpl; [exact Ha|].
  apply IH; [apply Hf; simpl; auto | intros; apply Hf; simpl; auto].
Qed.

Lemma In_set_add : forall x y l, In x (set_add y l) -> In x l \/ x = y.
Proof.
  intros x y l. unfold set_add. destruct (mem_str y l); [auto|].
  rewrite in_app_iff. simpl. intuition.
Qed.

Lemma In_set_update : forall (P : str -> Prop) acc xs,
  (forall x, In x acc -> P x) -> (forall x, In x xs -> P x) ->
  forall x, In x (set_update acc xs) -> P x.
Proof.
  intros P acc xs Hacc Hxs. unfold set_update.
  apply (fold_left_inv (fun a => forall x, In x a -> P x)); [exact Hacc|].
  intros a y Hy Ha x Hx. apply In_set_add in Hx as [Hx| ->]; auto.
Qed.

Lemma assoc_str_In : forall {A} k (l : list (str * A)) v, assoc_str k l = Some v -> In (k, v) l.
Proof.
  intros A k l v. induction l as [|[k' v'] l IH]; simpl; [discriminate|].
  destruct (str_eqb k k') eqn:E; intro H.
  - apply str_eqb_spec in E. subst. injection H as <-. auto.
  - auto.
Qed.

Lemma table_words_not_stopwords :
  forallb (fun w => negb (is_stopword w)) table_words = true.
Proof. vm_compute. reflexivity. Qed.

Lemma original_words_not_stopwords : forall q w,
  In w (original_words q) -> is_stopword w = false.
Proof.
  intros q w H. unfold original_words in H. apply filter_In in H as [_ H].
  apply negb_true_iff, H.
Qed.

Lemma expand_query_words : forall q w,
  In w (expand_query_with_synonyms q) -> In w (original_words q) \/ In w table_words.
Proof.
  intros q. unfold expand_query_with_synonyms.
  set (P := fun w => In w (original_words q) \/ In w table_words).
  apply (fold_left_inv (fun e => forall w, In w e -> P w)).
  - unfold to_set. apply In_set_update; [intros x []|]. intros x Hx. left. exact Hx.
  - intros e word _ He.
    assert (He1 : forall w, In w (match assoc_str word HR_SYNONYMS with
                                  | Some syns => set_update e syns
                                  | None => e end) -> P w).
    { destruct (assoc_str word HR_SYNONYMS) as [syns|] eqn:E; [|exact He].
      apply In_set_update; [exact He|]. intros x Hx. right.
      apply assoc_str_In in E. unfold table_words. apply in_flat_map.
      exists (word, syns). split; [exact E | right; exact Hx]. }
    apply (fold_left_inv (fun e => forall w, In w e -> P w)); [exact He1|].
    intros a [key syns] Hks Ha.
    destruct (mem_str word syns); [|exact Ha].
    apply In_set_update.
    + intros x Hx. apply In_set_add in Hx as [Hx| ->]; [auto|].
      right. unfold table_words. apply in_flat_map. exists (key, syns). simpl. auto.
    + intros x Hx. right. unfold table_words. apply in_flat_map.
      exists (key, syns). simpl. auto.
Qed.

Lemma expand_query_not_stopwords : forall q w,
  In w (expand_query_with_synonyms q) -> is_stopword w = false.
Proof.
  intros q w H. apply expand_query_words in H as [H|H].
  - eapply original_words_not_stopwords. exact H.
  - pose proof table_words_not_stopwords as T. rewrite forallb_forall in T.
    apply negb_true_iff, T, H.
Qed.

Lemma term_step_spec : forall ow tws text acc w,
  is_stopword w = false ->
  (fst (term_step ow tws text acc w) == fst acc + term_contribution_spec ow tws text w)%Q
  /\ snd (term_step ow tws text acc w) = snd acc ++ term_markers tws w.
Proof.
  intros ow tws text [score ms] w Hw.
  unfold term_step, term_contribution_spec, term_markers. rewrite Hw. simpl fst; simpl snd.
  destruct (mem_str w tws); [split; reflexivity|].
  destruct (3 <? length w) eqn:Hl; simpl.
  - destruct (find (fun tw => is_sub w tw || is_sub tw w) tws) as [tw|] eqn:Hf.
    + apply find_some in Hf as [Hin Hf].
      assert (Hex : existsb (fun tw => is_sub w tw || is_sub tw w) tws = true).
      { apply existsb_exists. exists tw. auto. }
      split; [|reflexivity].
      rewrite Hex. reflexivity.
    + assert (Hex : existsb (fun tw => is_sub w tw || is_sub tw w) tws = false).
      { apply not_true_iff_false. intro H. apply existsb_exists in H as [tw [Hin Htw]].
        rewrite (find_none _ _ Hf tw Hin) in Htw. discriminate. }
      rewrite Hex. split; [|rewrite app_nil_r; reflexivity].
      simpl. rewrite Qplus_0_r. reflexivity.
  - split; [|rewrite app_nil_r; reflexivity]. simpl. rewrite Qplus_0_r. reflexivity.
Qed.

Lemma term_fold_spec : forall ow tws text l acc,
  (forall w, In w l -> is_stopword w = false) ->
  (fst (fold_left (term_step ow tws text) l acc)
   == fst acc + fold_right Qplus 0 (map (term_contribution_spec ow tws text) l))%Q
  /\ snd (fold_left (term_step ow tws text) l acc)
     = snd acc ++ concat (map (term_markers tws) l).
Proof.
  intros ow tws text l. induction l as [|w l IH]; intros acc Hl; simpl.
  - rewrite Qplus_0_r, app_nil_r. split; reflexivity.
  - destruct (term_step_spec ow tws text acc w (Hl w (or_introl eq_refl))) as [E1 E2].
    destruct (IH (term_step ow tws text acc w) (fun x Hx => Hl x (or_intror Hx))) as [F1 F2].
    split.
    + rewrite F1, E1. rewrite Qplus_assoc. reflexivity.
    + rewrite F2, E2, app_assoc. reflexivity.
Qed.

(** C4. For every query and every chunk, the term-overlap score of
    [simple_search] is the sum over the expanded terms of the contribution
    the specification gives each term ([term_contribution_spec]); each
    expanded term found among the chunk's tokens is recorded as matched, and
    each longer term (over 3 characters) without exact match that is a
    substring of a token, or contains one, records a marker
    [term~token] for such a token. *)
Theorem simple_search_term_weights : forall query c,
  let text := lower (text c) in
  let tws := to_set (findall_words text) in
  let ow := original_words query in
  let qw := expand_query_with_synonyms query in
  let acc := term_scores ow tws text qw in
  (fst acc == fold_right Qplus 0 (map (term_contribution_spec ow tws text) qw))%Q
  /\ (forall w, In w qw -> In w tws -> In w (snd acc))
  /\ (forall w, In w qw -> ~ In w tws -> 3 < length w ->
        (exists tw, In tw tws /\ (is_sub w tw || is_sub tw w) = true) ->
        exists tw, In tw tws /\ (is_sub w tw || is_sub tw w) = true
                   /\ In (w ++ lit "~" ++ tw) (snd acc)).
Proof.
  intros query c text tws ow qw acc.
  destruct (term_fold_spec ow tws text qw (0%Q, [])
              (expand_query_not_stopwords query)) as [E1 E2].
  unfold acc, term_scores. rewrite E2. simpl snd. simpl fst in E1.
  split; [rewrite E1, Qplus_0_l; reflexivity|]. split.
  - intros w Hw Ht. apply in_concat. exists (term_markers tws w).
    split; [apply in_map, Hw|]. unfold term_markers.
    apply mem_str_In in Ht. rewrite Ht. left. reflexivity.
  - intros w Hw Ht Hl [tw0 [Hin0 Hsub0]].
    assert (Hm : mem_str w tws = false)
      by (apply not_true_iff_false; intro H; apply Ht, mem_str_In, H).
    destruct (find (fun tw => is_sub w tw || is_sub tw w) tws) as [tw|] eqn:Hf.
    + apply find_some in Hf as Hf'. destruct Hf' as [Hin Htw].
      exists tw. split; [exact Hin|]. split; [exact Htw|].
      apply in_concat. exists (term_markers tws w). split; [apply in_map, Hw|].
      unfold term_markers. rewrite Hm.
      assert (H3 : (3 <? length w) = true) by (apply Nat.ltb_lt; exact Hl).
      rewrite H3, Hf. left. reflexivity.
    + rewrite (find_none _ _ Hf tw0 Hin0) in Hsub0. discriminate.
Qed.

Lemma scored_results_zero : forall query all_chunks,
  original_words query = [] -> expand_query_with_synonyms query = [] ->
  scored_results query all_chunks = [].
Proof.
  intros query all_chunks Ho He. unfold scored_results. rewrite Ho, He.
  induction all_chunks as [|[cid c] r IH]; [reflexivity|].
  assert (Hsc : score_chunk query [] [] c = (0%Q, [])) by reflexivity.
  cbn -[score_chunk]. rewrite Hsc. exact IH.
Qed.

Lemma original_words_all_stop : forall query,
  forallb is_stopword (findall_words (lower query)) = true -> original_words query = [].
Proof.
  intros query H. unfold original_words.
  assert (Hs : forall w, In w (to_set (findall_words (lower query))) -> is_stopword w = true).
  { unfold to_set. apply In_set_update; [intros x []|].
    intros x Hx. rewrite forallb_forall in H. apply H, Hx. }
  induction (to_set (findall_words (lower query))) as [|w l IH]; [reflexivity|].
  simpl. rewrite (Hs w (or_introl eq_refl)). simpl.
  apply IH. intros x Hx. apply Hs. right. exact Hx.
Qed.

(** C10. A query whose word tokens are all stopwords (for instance
    ["show me the"]) has no original and no expanded term, every chunk scores
    0, and [simple_search] returns no result, whatever the store holds. *)
Theorem simple_search_stopword_query : forall query top_k st,
  forallb is_stopword (findall_words (lower query)) = true ->
  simple_search query top_k st = [].
Proof.
  intros query top_k st H.
  pose proof (original_words_all_stop query H) as Ho.
  assert (He : expand_query_with_synonyms query = []).
  { unfold expand_query_with_synonyms. rewrite Ho. reflexivity. }
  unfold simple_search, search_store.
  destruct (load_all_chunks st) as [|c r]; [reflexivity|].
  rewrite scored_results_zero by assumption.
  unfold py_slice. simpl sort_results. rewrite skipn_nil, firstn_nil. reflexivity.
Qed.

Lemma simple_search_stopword_query_witness :
  simple_search (lit "show me the") 5
    (mk_state (JsonFile [(lit "h_0", mk_chunk (lit "h") (lit "a.txt") 0
                                       (lit "show me the salary") [])]) [])
  = [].
Proof. apply simple_search_stopword_query. vm_compute. reflexivity. Defined.

(** *** Proximity boost *)

Lemma insert_nat_perm : forall x l, Permutation (insert_nat x l) (x :: l).
Proof.
  intros x l. induction l as [|y l IH]; simpl; [reflexivity|].
  destruct (x <=? y); [reflexivity|].
  rewrite IH. apply perm_swap.
Qed.

Lemma sort_nat_perm : forall l, Permutation (sort_nat l) l.
Proof.
  induction l as [|x l IH]; simpl; [reflexivity|].
  rewrite insert_nat_perm, IH. reflexivity.
Qed.

Lemma insert_nat_sorted : forall x l, Sorted le l -> Sorted le (insert_nat x l).
Proof.
  intros x l H. induction H as [|y l Hs IH Hhd]; simpl.
  - repeat constructor.
  - destruct (x <=? y) eqn:E.
    + apply Nat.leb_le in E. repeat constructor; assumption.
    + apply Nat.leb_gt in E. constructor; [exact IH|].
      destruct l as [|z l]; simpl.
      * constructor. lia.
      * inversion Hhd; subst. destruct (x <=? z); constructor; lia.
Qed.

Lemma sort_nat_sorted : forall l, Sorted le (sort_nat l).
Proof.
  induction l as [|x l IH]; simpl; [constructor|]. apply insert_nat_sorted, IH.
Qed.

Lemma close_nat_sym : forall p q, close_nat p q = close_nat q p.
Proof.
  intros p q. unfold close_nat. rewrite <- Z.abs_opp, Z.opp_sub_distr, Z.add_opp_l.
  reflexivity.
Qed.

Lemma existsb_perm : forall {A} (f : A -> bool) l l',
  Permutation l l' -> existsb f l = existsb f l'.
Proof.
  intros A f l l' H. induction H; simpl; try congruence.
  destruct (f x), (f y); reflexivity.
Qed.

Lemma has_close_pair_cons : forall p r,
  has_close_pair (p :: r) = existsb (close_nat p) r || has_close_pair r.
Proof. reflexivity. Qed.

Lemma has_close_pair_perm : forall l l', Permutation l l' -> has_close_pair l = has_close_pair l'.
Proof.
  intros l l' H. induction H as [|x l l' H IH|x y l|l l' l'' _ IH1 _ IH2].
  - reflexivity.
  - rewrite !has_close_pair_cons, IH. f_equal. apply existsb_perm. exact H.
  - rewrite !has_close_pair_cons. simpl existsb. rewrite (close_nat_sym y x).
    destruct (close_nat x y), (existsb (close_nat y) l), (existsb (close_nat x) l),
      (has_close_pair l); reflexivity.
  - congruence.
Qed.

Lemma sorted_close_adjacent : forall p q r,
  Sorted le (p :: q :: r) -> existsb (close_nat p) r = true -> existsb (close_nat q) r = true.
Proof.
  intros p q r Hs H. apply existsb_exists in H as [y [Hy Hpy]].
  apply Sorted_StronglySorted in Hs; [|exact Nat.le_trans].
  inversion Hs as [|? ? Hs1 Hall]; subst. inversion Hs1 as [|? ? Hs2 Hall2]; subst.
  rewrite Forall_forall in Hall, Hall2.
  assert (Hpq : p <= q) by (apply Hall; simpl; auto).
  assert (Hqy : q <= y) by (apply Hall2; exact Hy).
  apply existsb_exists. exists y. split; [exact Hy|].
  unfold close_nat in *. apply Z.ltb_lt in Hpy. apply Z.ltb_lt. lia.
Qed.

Lemma adjacent_close_sorted : forall l, Sorted le l -> adjacent_close l = has_close_pair l.
Proof.
  induction l as [|p [|q r] IH]; intro Hs; [reflexivity|reflexivity|].
  change (adjacent_close (p :: q :: r))
    with ((Z.of_nat q - Z.of_nat p <? 50)%Z || adjacent_close (q :: r)).
  rewrite IH by (inversion Hs; assumption).
  rewrite (has_close_pair_cons p (q :: r)). simpl existsb.
  assert (Hpq : p <= q) by (inversion Hs as [|? ? _ Hh]; inversion Hh; assumption).
  replace (Z.of_nat q - Z.of_nat p <? 50)%Z with (close_nat p q)
    by (unfold close_nat; f_equal; lia).
  destruct (close_nat p q); [reflexivity|]. cbn [orb].
  destruct (existsb (close_nat p) r) eqn:E; [|reflexivity]. cbn [orb].
  rewrite (has_close_pair_cons q r), (sorted_close_adjacent p q r Hs E). reflexivity.
Qed.

Lemma has_close_pair_spec : forall l,
  has_close_pair l = true <->
  exists a b c p q, l = a ++ p :: b ++ q :: c /\ (Z.abs (Z.of_nat p - Z.of_nat q) < 50)%Z.
Proof.
  induction l as [|x l IH]; simpl.
  - split; [discriminate|]. intros (a & b & c & p & q & E & _). destruct a; discriminate.
  - rewrite orb_true_iff. split.
    + intros [H|H].
      * apply existsb_exists in H as [q [Hq Hc]]. apply in_split in Hq as [b [c ->]].
        exists [], b, c, x, q. split; [reflexivity|]. apply Z.ltb_lt, Hc.
      * apply IH in H as (a & b & c & p & q & -> & Hc).
        exists (x :: a), b, c, p, q. auto.
    + intros ([|y a] & b & c & p & q & E & Hc); simpl in E; injection E as -> E.
      * left. apply existsb_exists. exists q. subst l. split.
        -- apply in_or_app. right. left. reflexivity.
        -- apply Z.ltb_lt, Hc.
      * right. apply IH. exists a, b, c, p, q. auto.
Qed.

Lemma has_close_pair_short : forall l, length l < 2 -> has_close_pair l = false.
Proof. intros [|x [|y l]] H; simpl in *; [reflexivity|reflexivity|lia]. Qed.

Lemma score_chunk_proximity : forall query c,
  fst (score_chunk query (original_words query) (expand_query_with_synonyms query) c)
  = proximity_boost query (original_words query) (lower (text c))
                    (score_before_proximity query c).
Proof. reflexivity. Qed.

(** C2 (amended). If the query has more than one original term: when the
    lowercased query occurs in the chunk's lowercased text the score is
    multiplied by 3; otherwise it is multiplied by 1.5, once, exactly when
    two distinct occurrences of original terms (of the same term or of two
    different terms) start less than 50 characters apart, and is left
    unchanged otherwise. *)
Theorem simple_search_phrase_proximity : forall query c,
  let ow := original_words query in
  let text := lower (text c) in
  let s0 := score_before_proximity query c in
  let s := fst (score_chunk query ow (expand_query_with_synonyms query) c) in
  1 < length ow ->
  (is_sub (lower query) text = true -> s = (s0 * 3)%Q)
  /\ (is_sub (lower query) text = false ->
      (close_occurrence_pair ow text -> s = (s0 * (3#2))%Q)
      /\ (~ close_occurrence_pair ow text -> s = s0)).
Proof.
  intros query c ow text s0 s Hlen. unfold s. rewrite score_chunk_proximity.
  fold ow text s0. unfold proximity_boost.
  assert (H1 : (1 <? length ow) = true) by (apply Nat.ltb_lt; exact Hlen).
  rewrite H1. split; [intro H; rewrite H; reflexivity|].
  intro H. rewrite H.
  assert (Hc : adjacent_close (sort_nat (all_positions ow text))
               = has_close_pair (all_positions ow text)).
  { rewrite adjacent_close_sorted by apply sort_nat_sorted.
    apply has_close_pair_perm, sort_nat_perm. }
  split.
  - intro Hp. apply has_close_pair_spec in Hp.
    destruct (2 <=? length (all_positions ow text)) eqn:E2.
    + rewrite Hc, Hp. reflexivity.
    + apply Nat.leb_gt in E2. rewrite has_close_pair_short in Hp by exact E2. discriminate.
  - intro Hp. unfold close_occurrence_pair in Hp.
    rewrite <- has_close_pair_spec, not_true_iff_false in Hp.
    destruct (2 <=? length (all_positions ow text)); [|reflexivity].
    rewrite Hc, Hp. reflexivity.
Qed.

Lemma simple_search_phrase_proximity_witness :
  fst (score_chunk repeat_query (original_words repeat_query)
         (expand_query_with_synonyms repeat_query) repeat_chunk)
  = (score_before_proximity repeat_query repeat_chunk * (3#2))%Q.
Proof.
  destruct (simple_search_phrase_proximity repeat_query repeat_chunk
              ltac:(apply Nat.ltb_lt; vm_compute; reflexivity)) as [_ H].
  apply H; [vm_compute; reflexivity|].
  exists [], [], [], 0, 7. split; vm_compute; reflexivity.
Defined.

(** C2 as stated fails: the query ["salary benefits"] has two original
    terms, it does not occur in the chunk ["Salary salary"], no occurrence of
    ["benefits"] is there (so no two different terms are close), yet the
    score, which is not 0, is multiplied by 1.5, because the two occurrences
    of ["salary"] start 7 characters apart. *)
Lemma simple_search_phrase_proximity_counterexample :
  1 < length (original_words repeat_query)
  /\ is_sub (lower repeat_query) (lower (text repeat_chunk)) = false
  /\ ~ different_term_pair (original_words repeat_query) (lower (text repeat_chunk))
  /\ ~ (score_before_proximity repeat_query repeat_chunk == 0)%Q
  /\ fst (score_chunk repeat_query (original_words repeat_query)
            (expand_query_with_synonyms repeat_query) repeat_chunk)
     = (score_before_proximity repeat_query repeat_chunk * (3#2))%Q.
Proof.
  split; [apply Nat.ltb_lt; vm_compute; reflexivity|].
  split; [vm_compute; reflexivity|].
  split.
  - intros (w1 & w2 & p1 & p2 & Hne & H1 & H2 & Hp1 & Hp2 & _).
    assert (E : original_words repeat_query = [lit "salary"; lit "benefits"])
      by (vm_compute; reflexivity).
    rewrite E in H1, H2.
    destruct H1 as [<-|[<-|[]]]; destruct H2 as [<-|[<-|[]]];
      try (apply Hne; reflexivity); vm_compute in Hp1, Hp2; contradiction.
  - split; [vm_compute; discriminate | vm_compute; reflexivity].
Qed.

(** ** Context assembly lemmas *)

Lemma assemble_parts_over : forall max_chars total rest,
  (max_chars < total)%Z -> assemble_parts max_chars total rest = [].
Proof.
  intros max_chars total [|[n t] rest] H; [reflexivity|]. simpl.
  assert (E : (max_chars <? total + Z.of_nat (length t))%Z = true) by (apply Z.ltb_lt; lia).
  assert (E' : (100 <? max_chars - total)%Z = false) by (apply Z.ltb_ge; lia).
  rewrite E, E'. reflexivity.
Qed.

Lemma assemble_parts_refines : forall max_chars results total,
  assemble_parts max_chars total results = assemble_parts_spec max_chars total results.
Proof.
  intros max_chars results. induction results as [|[n t] rest IH]; intro total; [reflexivity|].
  simpl. destruct (max_chars <? total + Z.of_nat (length t))%Z eqn:E.
  - apply Z.ltb_lt in E.
    assert (E1 : (total + Z.of_nat (length t) <=? max_chars)%Z = false) by (apply Z.leb_gt; lia).
    rewrite E1. destruct (100 <? max_chars - total)%Z eqn:E2; [|reflexivity].
    apply Z.ltb_lt in E2.
    assert (Hs : py_slice t 0 (max_chars - total) = firstn (Z.to_nat (max_chars - total)) t).
    { unfold py_slice, py_index. simpl.
      assert (Hn : (max_chars - total <? 0)%Z = false) by (apply Z.ltb_ge; lia).
      rewrite Hn.
      replace (Nat.min (Z.to_nat (max_chars - total)) (length t))
        with (Z.to_nat (max_chars - total)) by lia.
      rewrite Nat.sub_0_r. reflexivity. }
    rewrite Hs. f_equal. apply assemble_parts_over.
    rewrite length_app, length_firstn. simpl. lia.
  - apply Z.ltb_ge in E.
    assert (E1 : (total + Z.of_nat (length t) <=? max_chars)%Z = true) by (apply Z.leb_le; lia).
    rewrite E1. f_equal. apply IH.
Qed.

(** C8. For every retrieval result and every [max_chars], the assembled
    context is the separator-joined list of parts the specification
    describes ([assemble_parts_spec]): chunks are added while the running
    count stays within [max_chars]; the chunk that would overflow is
    included truncated to the remaining budget and suffixed with ["..."] if
    more than 100 characters of budget remain, and nothing follows it;
    otherwise assembly stops before it. *)
Theorem get_context_for_query_budget : forall results max_chars,
  assemble_context results max_chars
  = join context_separator (assemble_parts_spec max_chars 0 results).
Proof.
  intros [|r rs] max_chars; [reflexivity|].
  unfold assemble_context. rewrite assemble_parts_refines. reflexivity.
Qed.

(** C3 (amended). With [max_chars = 50] and a single retrieved chunk of 200
    characters, the assembled context is the empty string: only 50 characters
    of budget remain, not more than 100, so the chunk is dropped rather than
    truncated. *)
Theorem get_context_for_query_small_budget : forall doc_name t,
  length t = 200 -> assemble_context [(doc_name, t)] 50 = [].
Proof.
  intros doc_name t H. unfold assemble_context. simpl. rewrite H. reflexivity.
Qed.

Lemma get_context_for_query_small_budget_witness :
  assemble_context [(lit "handbook.txt", text_200)] 50 = [].
Proof. apply get_context_for_query_small_budget. reflexivity. Defined.

(** C3 as stated fails: for a 200-character chunk and [max_chars = 50] the
    result is empty; it contains no source label and no prefix of the chunk
    followed by ["..."]. *)
Lemma get_context_for_query_small_budget_counterexample :
  assemble_context [(lit "handbook.txt", text_200)] 50 = []
  /\ forall p, assemble_context [(lit "handbook.txt", text_200)] 50
               <> context_part (lit "handbook.txt") (p ++ lit "...").
Proof.
  split; [vm_compute; reflexivity|].
  intros p. vm_compute. discriminate.
Qed.

(** ** Store lemmas *)

Lemma str_eqb_refl : forall s, str_eqb s s = true.
Proof. intros s. apply str_eqb_spec. reflexivity. Qed.

Lemma In_firstn_l : forall {A} n (l : list A) y, In y (firstn n l) -> In y l.
Proof.
  intros A n l y H. rewrite <- (firstn_skipn n l). apply in_or_app. left. exact H.
Qed.

Lemma In_skipn_l : forall {A} n (l : list A) y, In y (skipn n l) -> In y l.
Proof.
  intros A n l y H. rewrite <- (firstn_skipn n l). apply in_or_app. right. exact H.
Qed.

Lemma py_slice_In : forall {A} (l : list A) a b y, In y (py_slice l a b) -> In y l.
Proof.
  intros A l a b y H. unfold py_slice in H. apply In_firstn_l, In_skipn_l in H. exact H.
Qed.

Lemma insert_desc_In : forall x y l, In y (insert_desc x l) -> y = x \/ In y l.
Proof.
  intros x y l. induction l as [|z l IH]; simpl; [intuition|].
  destruct (Qle_bool (res_score x) (res_score z)); simpl; intuition.
Qed.

Lemma sort_results_In : forall l y, In y (sort_results l) -> In y l.
Proof.
  intros l y. unfold sort_results.
  assert (G : forall acc, In y (fold_left (fun acc x => insert_desc x acc) l acc)
                          -> In y acc \/ In y l).
  { induction l as [|x l IH]; intros acc H; simpl in *; [auto|].
    destruct (IH _ H) as [H1|H1]; [|auto].
    destruct (insert_desc_In _ _ _ H1); auto. }
  intros H. destruct (G [] H) as [[]|]; assumption.
Qed.

Lemma scored_results_In : forall query all_chunks r,
  In r (scored_results query all_chunks) ->
  exists cid c, In (cid, c) all_chunks /\ res_doc_id r = doc_id c.
Proof.
  intros query all_chunks r H. unfold scored_results in H.
  apply in_flat_map in H as [[cid c] [Hin Hr]].
  destruct (score_chunk query (original_words query) (expand_query_with_synonyms query) c)
    as [score matches].
  destruct (Qpos score); [|destruct Hr].
  destruct Hr as [<-|[]]. exists cid, c. split; [exact Hin | reflexivity].
Qed.

Lemma simple_search_In : forall query top_k st r,
  In r (simple_search query top_k st) ->
  exists cid c, In (cid, c) (load_all_chunks st) /\ res_doc_id r = doc_id c.
Proof.
  intros query top_k st r H. unfold simple_search, search_store in H.
  destruct (load_all_chunks st) as [|p ps] eqn:E; [destruct H|].
  rewrite <- E in *.
  apply py_slice_In, sort_results_In, scored_results_In in H. exact H.
Qed.

Lemma group_add_In : forall docs c s,
  In s (group_add docs c) ->
  sum_id s = doc_id c \/ exists s', In s' docs /\ sum_id s' = sum_id s.
Proof.
  induction docs as [|d docs IH]; intros c s H; simpl in H.
  - destruct H as [<-|[]]. left. reflexivity.
  - destruct (str_eqb (sum_id d) (doc_id c)) eqn:E.
    + destruct H as [<-|H].
      * right. exists d. simpl. auto.
      * right. exists s. simpl. auto.
    + destruct H as [<-|H].
      * right. exists d. simpl. auto.
      * destruct (IH c s H) as [H1|[s' [H1 H2]]]; [left; exact H1|].
        right. exists s'. simpl. auto.
Qed.

Lemma get_all_documents_In : forall st s,
  In s (get_all_documents st) ->
  exists cid c, In (cid, c) (load_all_chunks st) /\ sum_id s = doc_id c.
Proof.
  intros st s. unfold get_all_documents.
  set (P := fun docs : list doc_summary => forall s, In s docs ->
              exists cid c, In (cid, c) (load_all_chunks st) /\ sum_id s = doc_id c).
  revert s. change (P (fold_left (fun docs '(_, c) => group_add docs c) (load_all_chunks st) [])).
  apply fold_left_inv; [intros s []|].
  intros docs [cid c] Hx Hdocs s H.
  destruct (group_add_In _ _ _ H) as [E|[s' [H1 E]]].
  - exists cid, c. auto.
  - destruct (Hdocs s' H1) as [cid' [c' [H2 E2]]]. exists cid', c'. split; [exact H2|congruence].
Qed.

Lemma delete_document_load : forall d st,
  load_all_chunks (snd (delete_document d st))
  = filter (fun '(_, c) => negb (str_eqb (doc_id c) d)) (load_all_chunks st).
Proof. reflexivity. Qed.



Lemma dict_set_keeps_keys : forall {V} k (v : V) d x,
  In x (map fst d) -> In x (map fst (dict_set k v d)).
Proof.
  intros V k v d x. induction d as [|[k' v'] d IH]; simpl; [intros []|].
  destruct (str_eqb k k') eqn:E; simpl.
  - apply str_eqb_spec in E. subst. intuition.
  - intuition.
Qed.




Lemma lit_inj : forall s t, lit s = lit t -> s = t.
Proof.
  intros s t H. rewrite <- (string_of_list_ascii_of_string s), <- (string_of_list_ascii_of_string t).
  unfold lit in H. rewrite H. reflexivity.
Qed.

Lemma str_of_nat_inj : forall i j, str_of_nat i = str_of_nat j -> i = j.
Proof.
  intros i j H. unfold str_of_nat in H. apply lit_inj in H.
  apply (f_equal DecimalString.NilEmpty.uint_of_string) in H.
  rewrite !DecimalString.NilEmpty.usu in H. injection H as H.
  rewrite <- (DecimalNat.Unsigned.of_to i), <- (DecimalNat.Unsigned.of_to j), H.
  reflexivity.
Qed.

Lemma chunk_id_inj : forall h i j, chunk_id h i = chunk_id h j -> i = j.
Proof.
  intros h i j H. unfold chunk_id in H.
  apply app_inv_head in H. apply app_inv_head in H. apply str_of_nat_inj, H.
Qed.

Lemma add_chunks_keeps_keys : forall h n m cs i s x,
  In x (map fst s) -> In x (map fst (add_chunks h n m i cs s)).
Proof.
  intros h n m cs. induction cs as [|c cs IH]; intros i s x H; simpl; [exact H|].
  apply IH, dict_set_keeps_keys, H.
Qed.




Lemma save_document_some : forall ex filename content metadata st,
  exists cs,
    chunk_text (extract_text_from_file ex content (lower (path_suffix filename))) 250 50 = Some cs
    /\ save_document ex filename content metadata st
       = Some (mk_doc_info (compute_file_hash content) filename
                 (lit "uploaded_documents/" ++ compute_file_hash content ++ lit "_"
                    ++ safe_filename filename)
                 (lower (path_suffix filename))
                 (match metadata with Some m => m | None => [] end) (length cs)
                 (length (extract_text_from_file ex content (lower (path_suffix filename)))),
               mk_state
                 (JsonFile (add_chunks (compute_file_hash content) filename
                              (match metadata with Some m => m | None => [] end) 0 cs
                              (load_all_chunks st)))
                 (dict_set (compute_file_hash content ++ lit "_" ++ safe_filename filename)
                    content (documents_dir st))).
Proof.
  intros ex filename content metadata st.
  destruct (chunk_text_nonempty_sentences
              (extract_text_from_file ex content (lower (path_suffix filename))) 250 50)
    as [cs [Hcs _]].
  exists cs. split; [exact Hcs|].
  unfold save_document. rewrite Hcs. reflexivity.
Qed.

(** C7. After [delete_document(d)], no search result and no listed
    document has id [d], and the returned flag is true exactly when the
    mapping held a chunk of [d]. *)
Theorem delete_document_complete : forall d st,
  (forall query top_k r,
     In r (simple_search query top_k (snd (delete_document d st))) -> res_doc_id r <> d)
  /\ (forall s, In s (get_all_documents (snd (delete_document d st))) -> sum_id s <> d)
  /\ (fst (delete_document d st) = true
      <-> exists cid c, In (cid, c) (load_all_chunks st) /\ doc_id c = d).
Proof.
  intros d st.
  assert (Hk : forall cid c, In (cid, c) (load_all_chunks (snd (delete_document d st)))
                             -> doc_id c <> d).
  { intros cid c H. rewrite delete_document_load in H.
    apply filter_In in H as [_ H]. apply negb_true_iff in H.
    intros E. subst. rewrite str_eqb_refl in H. discriminate. }
  split; [|split].
  - intros query top_k r H. destruct (simple_search_In _ _ _ _ H) as [cid [c [H1 E]]].
    rewrite E. exact (Hk _ _ H1).
  - intros s H. destruct (get_all_documents_In _ _ H) as [cid [c [H1 E]]].
    rewrite E. exact (Hk _ _ H1).
  - unfold delete_document. cbn [fst]. rewrite Nat.ltb_lt. split.
    + intros H. destruct (filter (fun '(_, c) => str_eqb (doc_id c) d) (load_all_chunks st))
        as [|[cid c] l] eqn:E; [simpl in H; lia|].
      assert (Hin : In (cid, c) (filter (fun '(_, c) => str_eqb (doc_id c) d)
                                        (load_all_chunks st))) by (rewrite E; left; reflexivity).
      apply filter_In in Hin as [Hin Hd]. apply str_eqb_spec in Hd. eauto.
    + intros [cid [c [Hin Hd]]].
      assert (Hf : In (cid, c) (filter (fun '(_, c) => str_eqb (doc_id c) d)
                                       (load_all_chunks st))).
      { apply filter_In. split; [exact Hin|]. apply str_eqb_spec, Hd. }
      destruct (filter (fun '(_, c) => str_eqb (doc_id c) d) (load_all_chunks st));
        [destruct Hf | simpl; lia].
Qed.

(** C9. A mapping file that does not parse loads as the empty mapping, and
    every read operation (search, the semantic search and the context
    built on it, the document list, the upload check, the deletion flag)
    gives what it gives on an empty mapping. *)
Theorem load_all_chunks_malformed : forall dir,
  load_all_chunks (mk_state Malformed dir) = []
  /\ (forall query top_k,
        simple_search query top_k (mk_state Malformed dir)
        = simple_search query top_k (mk_state (JsonFile []) dir)
        /\ simple_search query top_k (mk_state Malformed dir) = [])
  /\ (forall query top_k results,
        semantic_search_with_gemini query top_k (mk_state Malformed dir) results
        <-> results = [])
  /\ (forall query max_chunks max_chars out,
        get_context_for_query query max_chunks max_chars (mk_state Malformed dir) out
        <-> out = [])
  /\ get_all_documents (mk_state Malformed dir) = []
  /\ has_uploaded_documents (mk_state Malformed dir) = false
  /\ (forall d, fst (delete_document d (mk_state Malformed dir)) = false).
Proof.
  intros dir.
  assert (Hs : forall query top_k results,
             semantic_search_with_gemini query top_k (mk_state Malformed dir) results
             <-> results = []).
  { intros query top_k results. split.
    - intros H. inversion H; [reflexivity | contradiction | contradiction].
    - intros ->. apply semantic_empty. reflexivity. }
  split; [reflexivity|]. split; [intros; split; reflexivity|]. split; [exact Hs|].
  split; [|repeat split].
  intros query max_chunks max_chars out. unfold get_context_for_query. split.
  - intros [results [H ->]]. apply Hs in H. subst. reflexivity.
  - intros ->. exists []. split; [apply Hs; reflexivity | reflexivity].
Qed.




(** ** Further properties of the code *)

Lemma split_go_ws_tail : forall s w cur,
  forallb is_ws w = true -> split_go cur (s ++ w) = split_go cur s.
Proof.
  induction s as [|c s IH]; intros w cur Hw; simpl.
  - revert cur. induction w as [|c w IHw]; intros cur; [reflexivity|].
    simpl in Hw. apply andb_prop in Hw as [Hc Hw]. simpl. rewrite Hc.
    rewrite (IHw Hw []). destruct cur; reflexivity.
  - destruct (is_ws c); [destruct cur; rewrite IH by exact Hw; reflexivity|].
    apply IH, Hw.
Qed.

Lemma split_go_ws_head : forall p s,
  forallb is_ws p = true -> split_go [] (p ++ s) = split_go [] s.
Proof.
  induction p as [|c p IH]; intros s Hp; simpl in *; [reflexivity|].
  apply andb_prop in Hp as [Hc Hp]. rewrite Hc. apply IH, Hp.
Qed.

Lemma lstrip_split : forall s, exists p, forallb is_ws p = true /\ s = p ++ lstrip s.
Proof.
  induction s as [|c s IH]; simpl; [exists []; auto|].
  destruct (is_ws c) eqn:Hc.
  - destruct IH as [p [Hp E]]. exists (c :: p). simpl. rewrite Hc, Hp. split; [reflexivity|].
    f_equal. exact E.
  - exists []. auto.
Qed.

Lemma forallb_rev : forall {A} (f : A -> bool) l, forallb f (rev l) = forallb f l.
Proof.
  intros A f l. induction l as [|x l IH]; simpl; [reflexivity|].
  rewrite forallb_app, IH. simpl. rewrite andb_true_r, andb_comm. reflexivity.
Qed.

Lemma split_ws_strip : forall s, split_ws (strip s) = split_ws s.
Proof.
  intros s. unfold strip, split_ws.
  destruct (lstrip_split s) as [p [Hp Es]].
  destruct (lstrip_split (rev (lstrip s))) as [q [Hq Eq]].
  assert (Et : lstrip s = rev (lstrip (rev (lstrip s))) ++ rev q).
  { rewrite <- (rev_involutive (lstrip s)) at 1. rewrite Eq at 1. rewrite rev_app_distr. reflexivity. }
  rewrite Es at 2. rewrite split_go_ws_head by exact Hp.
  rewrite Et at 2. rewrite split_go_ws_tail; [reflexivity|].
  rewrite forallb_rev. exact Hq.
Qed.

Lemma split_go_collapse : forall s b cur,
  (b = true -> cur = []) -> split_go cur (collapse_ws b s) = split_go cur s.
Proof.
  induction s as [|c s IH]; intros b cur Hb; simpl; [reflexivity|].
  destruct (is_ws c) eqn:Hc.
  - destruct b.
    + rewrite (Hb eq_refl). rewrite IH by auto. reflexivity.
    + simpl. destruct cur; rewrite IH by auto; reflexivity.
  - simpl. rewrite Hc. apply IH. discriminate.
Qed.

Lemma split_ws_normalize : forall text0,
  split_ws (strip (collapse_ws false text0)) = split_ws text0.
Proof.
  intros text0. rewrite split_ws_strip. unfold split_ws. apply split_go_collapse. discriminate.
Qed.

Lemma split_sent_go_words : forall s prev sk cur,
  (sk = true -> cur = []) ->
  concat (map split_ws (split_sent_go prev sk cur s)) = split_ws (rev cur ++ s).
Proof.
  induction s as [|c s IH]; intros prev sk cur Hsk; simpl.
  - rewrite !app_nil_r. reflexivity.
  - destruct (sk && is_ws c) eqn:E1.
    + apply andb_prop in E1 as [-> Hc]. rewrite (Hsk eq_refl). simpl.
      rewrite IH by auto. unfold split_ws. simpl. rewrite Hc. reflexivity.
    + destruct (is_ws c && match prev with Some p => is_sentence_end p | None => false end)
        eqn:E2.
      * apply andb_prop in E2 as [Hc _]. simpl. rewrite IH by auto. simpl.
        unfold split_ws. rewrite split_go_app_ws by exact Hc. reflexivity.
      * rewrite IH by discriminate. simpl. rewrite <- app_assoc. reflexivity.
Qed.

Lemma split_sentences_words : forall t,
  concat (map split_ws (split_sentences t)) = split_ws t.
Proof. intros t. apply split_sent_go_words. discriminate. Qed.

Lemma last_n_0 : forall {A} (l : list A), last_n l 0 = [].
Proof. intros A l. unfold last_n. rewrite Nat.sub_0_r. apply skipn_all. Qed.

Lemma unseeded_go_snoc : forall ov cs p x,
  unseeded_go ov p (cs ++ [x])
  = unseeded_go ov p cs
    ++ skipn (length (last_n (match cs with [] => p | _ => split_ws (last cs []) end)
                             (Z.to_nat ov))) (split_ws x).
Proof.
  intros ov cs. induction cs as [|c cs IH]; intros p x; simpl.
  - rewrite app_nil_r. reflexivity.
  - rewrite IH, app_assoc. destruct cs; reflexivity.
Qed.

Lemma unseeded_snoc : forall ov cs x,
  unseeded_words ov (cs ++ [x]) = unseeded_words ov cs ++ tailw ov cs x.
Proof.
  intros ov [|c cs] x; simpl; [rewrite !app_nil_r; reflexivity|].
  rewrite unseeded_go_snoc, app_assoc. destruct cs; reflexivity.
Qed.

Lemma unseeded_go_nonpos : forall ov p cs,
  (ov <= 0)%Z -> unseeded_go ov p cs = concat (map split_ws cs).
Proof.
  intros ov p cs H. revert p. induction cs as [|c cs IH]; intros p; simpl; [reflexivity|].
  replace (Z.to_nat ov) with 0 by lia. rewrite last_n_0. simpl. rewrite IH. reflexivity.
Qed.

Lemma close_current_cons : forall cs cur, cur <> [] ->
  close_current cs cur = cs ++ [join space cur].
Proof. intros cs [|x cur] H; [congruence|reflexivity]. Qed.

Lemma words_of_app : forall l1 l2, words_of (l1 ++ l2) = words_of l1 ++ words_of l2.
Proof. intros. unfold words_of. rewrite map_app, concat_app. reflexivity. Qed.

Lemma words_of_one : forall s, words_of [s] = split_ws s.
Proof. intros. unfold words_of. simpl. apply app_nil_r. Qed.

Lemma seed_len_zero : forall ov cs cur,
  (chunks (mk_pack cs cur 0) <> [] -> (0 < ov)%Z ->
   exists rest, words_of cur = last_n (split_ws (last cs [])) (Z.to_nat ov) ++ rest) ->
  cs <> [] ->
  length (last_n (split_ws (last cs [])) (Z.to_nat ov)) <= length (words_of cur).
Proof.
  intros ov cs cur H Hcs. destruct (Z.ltb_spec 0 ov) as [Hov|Hov].
  - destruct (H Hcs Hov) as [rest ->]. rewrite length_app. lia.
  - replace (Z.to_nat ov) with 0 by lia. rewrite last_n_0. simpl. lia.
Qed.

Lemma pack_step_words : forall cs ov st done s,
  pack_words_inv ov st done ->
  pack_words_inv ov (pack_step cs ov st s) (done ++ [s]).
Proof.
  intros csz ov [cs cur n] done s [H1 H2]. cbn [chunks current_chunk] in *.
  unfold pack_words_inv. rewrite words_of_app, words_of_one.
  unfold pack_step. cbn [chunks current_chunk current_word_count].
  destruct (n + Z.of_nat (length (split_ws s)) <=? csz)%Z.
  - (* the sentence fits in the current chunk *)
    cbn [chunks current_chunk]. split.
    + rewrite close_current_cons by (destruct cur; discriminate).
      rewrite unseeded_snoc. unfold tailw. rewrite split_ws_join.
      fold (words_of (cur ++ [s])). rewrite words_of_app, words_of_one.
      assert (Hle : cs <> [] ->
                length (last_n (split_ws (last cs [])) (Z.to_nat ov)) <= length (words_of cur))
        by (apply (seed_len_zero ov cs cur); exact H2).
      destruct cur as [|x cur].
      * cbn [close_current] in H1. rewrite <- H1.
        destruct cs as [|c cs]; [reflexivity|].
        specialize (Hle ltac:(discriminate)). change (length (words_of [])) with 0 in Hle.
        rewrite (proj1 (Nat.le_0_r _) Hle). reflexivity.
      * rewrite close_current_cons in H1 by discriminate.
        rewrite unseeded_snoc in H1. unfold tailw in H1. rewrite split_ws_join in H1.
        fold (words_of (x :: cur)) in H1.
        rewrite <- H1, <- app_assoc. f_equal.
        destruct cs as [|c cs]; [reflexivity|].
        rewrite skipn_app. specialize (Hle ltac:(discriminate)).
        replace (_ - length (words_of (x :: cur))) with 0 by lia. reflexivity.
    + intros Hcs Hov. destruct (H2 Hcs Hov) as [rest Hr]. exists (rest ++ split_ws s).
      rewrite words_of_app, words_of_one, Hr, app_assoc. reflexivity.
  - (* the chunk is closed *)
    destruct (close_current cs cur) as [|c0 cs0] eqn:Ec.
    + assert (cs = [] /\ cur = []) as [-> ->].
      { destruct cur; [|rewrite close_current_cons in Ec by discriminate;
                        destruct cs; discriminate].
        cbn in Ec. auto. }
      cbn [chunks current_chunk close_current join]. cbn in H1. rewrite <- H1.
      split; [simpl; rewrite !app_nil_r; reflexivity|].
      intros Hc. congruence.
    + destruct (0 <? ov)%Z eqn:Hov.
      * cbn [chunks current_chunk].
        set (pw := last_n (split_ws (last (c0 :: cs0) [])) (Z.to_nat ov)).
        assert (Hpw : split_ws (join space pw) = pw).
        { apply split_ws_join_words, Forall_last_n, split_ws_good. }
        assert (Hw : words_of [join space pw; s] = pw ++ split_ws s).
        { unfold words_of. simpl. rewrite Hpw, app_nil_r. reflexivity. }
        split.
        -- rewrite close_current_cons by discriminate. rewrite unseeded_snoc, H1.
           f_equal. unfold tailw. rewrite split_ws_join. fold (words_of [join space pw; s]).
           rewrite Hw. fold pw. rewrite skipn_app, skipn_all, Nat.sub_diag. reflexivity.
        -- intros _ _. exists (split_ws s). exact Hw.
      * cbn [chunks current_chunk]. split.
        -- change (close_current (c0 :: cs0) [s]) with ((c0 :: cs0) ++ [s]).
           rewrite unseeded_snoc, H1. f_equal. unfold tailw.
           apply Z.ltb_ge in Hov. replace (Z.to_nat ov) with 0 by lia.
           rewrite last_n_0. reflexivity.
        -- intros _ H. apply Z.ltb_ge in Hov. lia.
Qed.

Lemma fold_pack_words : forall cs ov l st done,
  pack_words_inv ov st done ->
  pack_words_inv ov (fold_left (pack_step cs ov) l st) (done ++ l).
Proof.
  intros cs ov l. induction l as [|s l IH]; intros st done H; simpl.
  - rewrite app_nil_r. exact H.
  - replace (done ++ s :: l) with ((done ++ [s]) ++ l) by (rewrite <- app_assoc; reflexivity).
    apply IH, pack_step_words, H.
Qed.

Lemma chunk_text_words : forall text0 cs ov out,
  chunk_text text0 cs ov = Some out -> unseeded_words ov out = split_ws text0.
Proof.
  intros text0 cs ov out H.
  destruct (chunk_text_nonempty_sentences text0 cs ov) as [out' [H' ->]].
  rewrite H in H'. injection H' as ->.
  assert (I0 : pack_words_inv ov (mk_pack [] [] 0) []).
  { split; [reflexivity|]. intros Hc. exfalso. apply Hc. reflexivity. }
  destruct (fold_pack_words cs ov (split_sentences (strip (collapse_ws false text0))) _ _ I0)
    as [Hw _].
  rewrite Hw. simpl. unfold words_of. rewrite split_sentences_words. apply split_ws_normalize.
Qed.

Lemma chunk_text_out_nonempty : forall text0 cs ov out,
  chunk_text text0 cs ov = Some out -> out <> [].
Proof.
  intros text0 cs ov out H.
  destruct (chunk_text_nonempty_sentences text0 cs ov) as [out' [H' ->]].
  rewrite H in H'. injection H' as ->.
  rewrite close_current_cons.
  - destruct (chunks _); discriminate.
  - apply fold_pack_current. right. apply split_sent_go_nonempty.
Qed.

(** X1. [chunk_text] always returns, and returns at least one chunk: the
    sentence packing always ends with a non-empty current chunk, so the
    word-window fallback and the empty-list returns are never reached. *)
Theorem chunk_text_returns_chunks : forall text0 chunk_size overlap,
  exists out, chunk_text text0 chunk_size overlap = Some out /\ out <> [].
Proof.
  intros text0 cs ov.
  destruct (chunk_text_nonempty_sentences text0 cs ov) as [out [H _]].
  exists out. split; [exact H|]. eapply chunk_text_out_nonempty, H.
Qed.

(** X2. The chunks of [chunk_text] hold the words of the text in order:
    dropping from each chunk the overlap words it repeats from the previous
    one gives back the whitespace-separated words of the input; with no
    overlap, the chunks' words are exactly the input's words. *)
Theorem chunk_text_keeps_words : forall text0 chunk_size overlap,
  exists out, chunk_text text0 chunk_size overlap = Some out
    /\ unseeded_words overlap out = split_ws text0
    /\ ((overlap <= 0)%Z -> concat (map split_ws out) = split_ws text0).
Proof.
  intros text0 cs ov.
  destruct (chunk_text_nonempty_sentences text0 cs ov) as [out [H _]].
  exists out. split; [exact H|].
  assert (Hw : unseeded_words ov out = split_ws text0) by (eapply chunk_text_words, H).
  split; [exact Hw|]. intros Hov. rewrite <- Hw.
  destruct out as [|c rest]; [reflexivity|]. simpl. rewrite unseeded_go_nonpos by exact Hov.
  reflexivity.
Qed.

(** Search. *)

Lemma Qpos_spec : forall q, Qpos q = true -> (0 < q)%Q.
Proof.
  intros q H. unfold Qpos in H. apply negb_true_iff in H.
  apply Qnot_le_lt. intros Hle. apply Qle_bool_iff in Hle. congruence.
Qed.

Lemma insert_desc_perm : forall x l, Permutation (insert_desc x l) (x :: l).
Proof.
  intros x l. induction l as [|y l IH]; simpl; [reflexivity|].
  destruct (Qle_bool (res_score x) (res_score y)); [|reflexivity].
  rewrite IH. apply perm_swap.
Qed.

Lemma sort_results_perm : forall l, Permutation (sort_results l) l.
Proof.
  intros l. unfold sort_results.
  assert (G : forall acc, Permutation (fold_left (fun acc x => insert_desc x acc) l acc) (l ++ acc)).
  { induction l as [|x l IH]; intros acc; simpl; [reflexivity|].
    rewrite IH, insert_desc_perm. symmetry. apply Permutation_middle. }
  rewrite G, app_nil_r. reflexivity.
Qed.

Lemma insert_desc_sorted : forall x l, Sorted score_ge l -> Sorted score_ge (insert_desc x l).
Proof.
  intros x l H. induction H as [|y l Hs IH Hhd]; simpl.
  - repeat constructor.
  - destruct (Qle_bool (res_score x) (res_score y)) eqn:E.
    + apply Qle_bool_iff in E. constructor; [exact IH|].
      destruct l as [|z l]; simpl.
      * constructor. exact E.
      * inversion Hhd; subst.
        destruct (Qle_bool (res_score x) (res_score z)); constructor; assumption.
    + assert (Hlt : (res_score y < res_score x)%Q).
      { apply Qnot_le_lt. intros Hle. apply Qle_bool_iff in Hle. congruence. }
      constructor; [constructor; assumption|]. constructor. unfold score_ge.
      apply Qlt_le_weak, Hlt.
Qed.

Lemma sort_results_sorted : forall l, Sorted score_ge (sort_results l).
Proof.
  intros l. unfold sort_results.
  assert (G : forall acc, Sorted score_ge acc ->
              Sorted score_ge (fold_left (fun acc x => insert_desc x acc) l acc)).
  { induction l as [|x l IH]; intros acc H; simpl; [exact H|].
    apply IH, insert_desc_sorted, H. }
  apply G. constructor.
Qed.

Lemma Sorted_firstn : forall {A} (R : A -> A -> Prop) n l, Sorted R l -> Sorted R (firstn n l).
Proof.
  intros A R n l. revert n. induction l as [|x l IH]; intros n H; [rewrite firstn_nil; constructor|].
  destruct n as [|n]; simpl; [constructor|].
  inversion H as [|? ? Hs Hhd]; subst. constructor; [apply IH, Hs|].
  destruct l as [|y l]; [rewrite firstn_nil; constructor|].
  destruct n; simpl; [constructor|]. inversion Hhd; subst. constructor. assumption.
Qed.

Lemma py_slice_0 : forall {A} (l : list A) k, py_slice l 0 k = firstn (py_index (length l) k) l.
Proof. intros A l k. unfold py_slice. simpl. rewrite Nat.sub_0_r. reflexivity. Qed.

Lemma firstn_min_length : forall {A} k (l : list A), firstn (Nat.min k (length l)) l = firstn k l.
Proof.
  intros A k l. destruct (Nat.le_ge_cases k (length l)) as [H|H].
  - rewrite Nat.min_l by exact H. reflexivity.
  - rewrite Nat.min_r by exact H. rewrite firstn_all, firstn_all2 by exact H. reflexivity.
Qed.

Lemma py_slice_nonneg : forall {A} (l : list A) k,
  (0 <= k)%Z -> py_slice l 0 k = firstn (Z.to_nat k) l.
Proof.
  intros A l k Hk. rewrite py_slice_0. unfold py_index.
  replace (k <? 0)%Z with false by (symmetry; apply Z.ltb_ge; exact Hk).
  apply firstn_min_length.
Qed.

Lemma flat_map_length_le : forall {A B} (f : A -> list B) l,
  (forall x, length (f x) <= 1) -> length (flat_map f l) <= length l.
Proof.
  intros A B f l Hf. induction l as [|x l IH]; simpl; [lia|].
  rewrite length_app. specialize (Hf x). lia.
Qed.

Lemma scored_results_length : forall q s, length (scored_results q s) <= length s.
Proof.
  intros q s. unfold scored_results. apply flat_map_length_le.
  intros [cid c]. destruct (score_chunk _ _ _ c) as [sc m].
  destruct (Qpos sc); simpl; lia.
Qed.

Lemma simple_search_sub : forall q k st r,
  In r (simple_search q k st) -> In r (scored_results q (load_all_chunks st)).
Proof.
  intros q k st r H. unfold simple_search, search_store in H.
  destruct (load_all_chunks st); [destruct H|].
  apply py_slice_In, sort_results_In in H. exact H.
Qed.

(** X3. The results of [simple_search] are sorted by non-increasing score,
    and a non-negative [top_k] bounds their number. *)
Theorem simple_search_ranked : forall query top_k st,
  Sorted score_ge (simple_search query top_k st)
  /\ ((0 <= top_k)%Z -> length (simple_search query top_k st) <= Z.to_nat top_k).
Proof.
  intros q k st. unfold simple_search, search_store.
  destruct (load_all_chunks st) as [|p ps]; [split; [constructor|simpl; lia]|].
  split.
  - rewrite py_slice_0. apply Sorted_firstn, sort_results_sorted.
  - intros Hk. rewrite py_slice_nonneg by exact Hk. rewrite length_firstn. lia.
Qed.

(** X4. Every result of [simple_search] is a stored chunk under its own id,
    with the chunk's document id, name, text and metadata, and its score is
    the chunk's score for the query, which is positive. *)
Theorem simple_search_results_stored : forall query top_k st r,
  In r (simple_search query top_k st) ->
  exists c, In (res_chunk_id r, c) (load_all_chunks st)
    /\ res_doc_id r = doc_id c /\ res_doc_name r = doc_name c /\ res_text r = text c
    /\ res_metadata r = metadata c
    /\ res_score r = fst (score_chunk query (original_words query)
                              (expand_query_with_synonyms query) c)
    /\ (0 < res_score r)%Q.
Proof.
  intros q k st r H. apply simple_search_sub in H. unfold scored_results in H.
  apply in_flat_map in H as [[cid c] [Hin Hr]].
  destruct (score_chunk q (original_words q) (expand_query_with_synonyms q) c)
    as [sc m] eqn:Es.
  destruct (Qpos sc) eqn:Ep; [|destruct Hr].
  destruct Hr as [<-|[]]. exists c. cbn [res_chunk_id res_doc_id res_doc_name res_text res_metadata res_score]. rewrite Es.
  repeat split; auto. apply Qpos_spec, Ep.
Qed.

(** X5. For non-negative [k1 <= k2], the results for [top_k = k1] are the
    first [k1] results for [top_k = k2]. *)
Theorem simple_search_top_k_prefix : forall query k1 k2 st,
  (0 <= k1)%Z -> (k1 <= k2)%Z ->
  simple_search query k1 st = firstn (Z.to_nat k1) (simple_search query k2 st).
Proof.
  intros q k1 k2 st H1 H2. unfold simple_search, search_store.
  destruct (load_all_chunks st) as [|p ps]; [rewrite firstn_nil; reflexivity|].
  rewrite !py_slice_nonneg by lia. rewrite firstn_firstn.
  f_equal. lia.
Qed.

Lemma simple_search_full : forall q st,
  simple_search q (Z.of_nat (length (load_all_chunks st))) st
  = match load_all_chunks st with
    | [] => []
    | _ => sort_results (scored_results q (load_all_chunks st))
    end.
Proof.
  intros q st. unfold simple_search, search_store.
  destruct (load_all_chunks st) as [|p ps] eqn:E; [reflexivity|].
  rewrite <- E. rewrite py_slice_nonneg by lia. rewrite Nat2Z.id.
  apply firstn_all2. rewrite (Permutation_length (sort_results_perm _)).
  apply scored_results_length.
Qed.

(** X6. A negative [top_k = -p] is a Python slice end: the result is the full
    ranking without its last [p] entries. *)
Theorem simple_search_negative_top_k : forall query (p : positive) st,
  let full := simple_search query (Z.of_nat (length (load_all_chunks st))) st in
  simple_search query (Zneg p) st = firstn (length full - Pos.to_nat p) full.
Proof.
  intros q p st full. subst full. rewrite simple_search_full.
  unfold simple_search, search_store.
  destruct (load_all_chunks st) as [|x xs]; [reflexivity|].
  rewrite py_slice_0. f_equal. unfold py_index. cbn [Z.ltb Z.compare].
  generalize (length (sort_results (scored_results q (x :: xs)))). intros n.
  rewrite <- Pos2Z.opp_pos. pose proof (Pos2Nat.is_pos p). rewrite <- positive_nat_Z. lia.
Qed.

Lemma lower_char_idem : forall c, lower_char (lower_char c) = lower_char c.
Proof. intros [[] [] [] [] [] [] [] []]; reflexivity. Qed.

Lemma lower_idem : forall s, lower (lower s) = lower s.
Proof.
  intros s. unfold lower. rewrite map_map. apply map_ext. apply lower_char_idem.
Qed.

Lemma original_words_lower : forall q, original_words (lower q) = original_words q.
Proof. intros q. unfold original_words. rewrite lower_idem. reflexivity. Qed.

Lemma expand_query_lower : forall q,
  expand_query_with_synonyms (lower q) = expand_query_with_synonyms q.
Proof. intros q. unfold expand_query_with_synonyms. rewrite original_words_lower. reflexivity. Qed.

Lemma score_chunk_lower : forall q ow qw c, score_chunk (lower q) ow qw c = score_chunk q ow qw c.
Proof.
  intros q ow qw c. unfold score_chunk, proximity_boost. rewrite lower_idem. reflexivity.
Qed.

Lemma simple_search_lower_query : forall q k st,
  simple_search (lower q) k st = simple_search q k st.
Proof.
  intros q k st. unfold simple_search, search_store.
  destruct (load_all_chunks st) as [|x xs]; [reflexivity|].
  f_equal. f_equal. unfold scored_results.
  rewrite original_words_lower, expand_query_lower.
  apply flat_map_ext. intros [cid c]. rewrite score_chunk_lower. reflexivity.
Qed.

(** Listing. *)

Lemma str_eqb_sym : forall s t, str_eqb s t = str_eqb t s.
Proof.
  intros s t. destruct (str_eqb s t) eqn:E1, (str_eqb t s) eqn:E2; auto.
  - apply str_eqb_spec in E1. subst. rewrite str_eqb_refl in E2. discriminate.
  - apply str_eqb_spec in E2. subst. rewrite str_eqb_refl in E1. discriminate.
Qed.

Lemma str_eqb_neq : forall s t, s <> t -> str_eqb s t = false.
Proof.
  intros s t H. destruct (str_eqb s t) eqn:E; [|reflexivity].
  apply str_eqb_spec in E. contradiction.
Qed.

Lemma group_add_ids_in : forall docs c,
  In (doc_id c) (map sum_id docs) -> map sum_id (group_add docs c) = map sum_id docs.
Proof.
  induction docs as [|d docs IH]; intros c H; simpl in *; [destruct H|].
  destruct (str_eqb (sum_id d) (doc_id c)) eqn:E; simpl; [reflexivity|].
  f_equal. apply IH. destruct H as [H|H]; [|exact H].
  rewrite H, str_eqb_refl in E. discriminate.
Qed.

Lemma group_add_notin : forall docs c,
  ~ In (doc_id c) (map sum_id docs) ->
  group_add docs c = docs ++ [mk_summary (doc_id c) (doc_name c) 1 (metadata c)].
Proof.
  induction docs as [|d docs IH]; intros c H; simpl in *; [reflexivity|].
  rewrite str_eqb_neq by (intros E; apply H; left; exact E).
  rewrite IH by tauto. reflexivity.
Qed.

Lemma group_add_counts : forall docs c s,
  NoDup (map sum_id docs) -> In s (group_add docs c) ->
  (exists s0, In s0 docs /\ sum_id s0 = sum_id s
              /\ sum_chunk_count s = (if str_eqb (doc_id c) (sum_id s) then 1 else 0)
                                     + sum_chunk_count s0)
  \/ (sum_id s = doc_id c /\ sum_chunk_count s = 1 /\ ~ In (doc_id c) (map sum_id docs)).
Proof.
  induction docs as [|d docs IH]; intros c s Hnd H; simpl in H.
  - destruct H as [<-|[]]. right. simpl. auto.
  - simpl in Hnd. inversion Hnd as [|? ? Hnin Hnd']; subst.
    destruct (str_eqb (sum_id d) (doc_id c)) eqn:E.
    + apply str_eqb_spec in E. destruct H as [<-|H].
      * left. exists d. simpl. rewrite <- E, str_eqb_refl. auto.
      * left. exists s. split; [right; exact H|]. split; [reflexivity|].
        rewrite str_eqb_neq; [reflexivity|].
        intros Hs. apply Hnin. rewrite E, Hs. apply in_map, H.
    + destruct H as [<-|H].
      * left. exists d. split; [left; reflexivity|]. split; [reflexivity|].
        rewrite str_eqb_sym, E. reflexivity.
      * destruct (IH c s Hnd' H) as [[s0 [H1 H2]]|[H1 [H2 H3]]].
        -- left. exists s0. split; [right; exact H1|exact H2].
        -- right. split; [exact H1|]. split; [exact H2|].
           intros [H4|H4]; [|contradiction]. rewrite H4, str_eqb_refl in E. discriminate.
Qed.

Lemma group_add_fold_inv : forall (l pre : store) (docs : list doc_summary),
  NoDup (map sum_id docs) ->
  (forall i, In i (map sum_id docs) <-> exists cid (c : chunk_rec), In (cid, c) pre /\ doc_id c = i) ->
  (forall s, In s docs ->
     sum_chunk_count s = length (filter (fun '(_, c) => str_eqb (doc_id c) (sum_id s)) pre)) ->
  let docs' := fold_left (fun docs '(_, c) => group_add docs c) l docs in
  NoDup (map sum_id docs')
  /\ (forall i, In i (map sum_id docs') <-> exists cid c, In (cid, c) (pre ++ l) /\ doc_id c = i)
  /\ (forall s, In s docs' ->
        sum_chunk_count s
        = length (filter (fun '(_, c) => str_eqb (doc_id c) (sum_id s)) (pre ++ l))).
Proof.
  induction l as [|[cid c] l IH]; intros pre docs Hnd Hids Hcnt; simpl.
  - rewrite app_nil_r. auto.
  - replace (pre ++ (cid, c) :: l) with ((pre ++ [(cid, c)]) ++ l)
      by (rewrite <- app_assoc; reflexivity).
    apply IH.
    + destruct (in_dec (list_eq_dec ascii_dec) (doc_id c) (map sum_id docs)) as [Hin|Hin].
      * rewrite group_add_ids_in by exact Hin. exact Hnd.
      * rewrite group_add_notin by exact Hin. rewrite map_app. simpl.
        apply (Permutation_NoDup (Permutation_cons_append _ _)). constructor; assumption.
    + intros i.
      destruct (in_dec (list_eq_dec ascii_dec) (doc_id c) (map sum_id docs)) as [Hin|Hin].
      * rewrite group_add_ids_in by exact Hin. rewrite Hids. split.
        -- intros [cid' [c' [H1 H2]]]. exists cid', c'. rewrite in_app_iff. auto.
        -- intros [cid' [c' [H1 H2]]]. apply in_app_iff in H1 as [H1|[H1|[]]].
           ++ exists cid', c'. auto.
           ++ injection H1 as -> ->. apply Hids. rewrite <- H2. exact Hin.
      * rewrite group_add_notin by exact Hin. rewrite map_app, in_app_iff, Hids. simpl. split.
        -- intros [[cid' [c' [H1 H2]]]|[H|[]]].
           ++ exists cid', c'. rewrite in_app_iff. auto.
           ++ exists cid, c. rewrite in_app_iff. simpl. auto.
        -- intros [cid' [c' [H1 H2]]]. apply in_app_iff in H1 as [H1|[H1|[]]].
           ++ left. exists cid', c'. auto.
           ++ injection H1 as -> ->. auto.
    + intros s Hs. rewrite filter_app, length_app. simpl.
      destruct (group_add_counts docs c s Hnd Hs) as [[s0 [H1 [H2 H3]]]|[H1 [H2 H3]]].
      * rewrite H3, Hcnt by exact H1. rewrite H2. destruct (str_eqb (doc_id c) (sum_id s)); simpl; lia.
      * rewrite H1, H2, str_eqb_refl. simpl.
        assert (H0 : filter (fun '(_, c0) => str_eqb (doc_id c0) (doc_id c)) pre = []).
        { destruct (filter _ pre) as [|[cid' c'] r] eqn:Ef; [reflexivity|].
          exfalso. assert (Hx : In (cid', c') (filter (fun '(_, c0) => str_eqb (doc_id c0) (doc_id c)) pre))
            by (rewrite Ef; left; reflexivity).
          apply filter_In in Hx as [Hx1 Hx2]. apply str_eqb_spec in Hx2.
          apply H3, Hids. exists cid', c'. auto. }
        rewrite H0. reflexivity.
Qed.

(** X8. [get_all_documents] lists each document id of the stored chunks
    exactly once, and no other, with its chunk count equal to the number of
    stored chunks carrying that id. *)
Theorem get_all_documents_groups : forall st,
  let docs := get_all_documents st in
  NoDup (map sum_id docs)
  /\ (forall i, In i (map sum_id docs)
                <-> exists cid c, In (cid, c) (load_all_chunks st) /\ doc_id c = i)
  /\ (forall s, In s docs ->
        sum_chunk_count s
        = length (filter (fun '(_, c) => str_eqb (doc_id c) (sum_id s)) (load_all_chunks st))).
Proof.
  intros st docs. subst docs. unfold get_all_documents.
  apply (group_add_fold_inv (load_all_chunks st) [] []).
  - constructor.
  - intros i. simpl. split; [intros []|intros [? [? [[] _]]]].
  - intros s [].
Qed.

(** Deletion and upload. *)

Lemma filter_idem : forall {A} (f : A -> bool) l, filter f (filter f l) = filter f l.
Proof.
  intros A f l. induction l as [|x l IH]; simpl; [reflexivity|].
  destruct (f x) eqn:E; simpl; [rewrite E, IH|]; auto.
Qed.

Lemma filter_none : forall {A} (f : A -> bool) l,
  (forall x, In x l -> f x = false) -> filter f l = [].
Proof.
  intros A f l H. induction l as [|x l IH]; simpl; [reflexivity|].
  rewrite H by (left; reflexivity). apply IH. intros y Hy. apply H. right. exact Hy.
Qed.

Lemma filter_all : forall {A} (f : A -> bool) l,
  (forall x, In x l -> f x = true) -> filter f l = l.
Proof.
  intros A f l H. induction l as [|x l IH]; simpl; [reflexivity|].
  rewrite H by (left; reflexivity). f_equal. apply IH. intros y Hy. apply H. right. exact Hy.
Qed.

(** X9. Deleting a document a second time returns [False] and changes
    nothing, for a document id made of hex digits (every id [save_document]
    gives is one), for which the glob [f"{doc_id}_*"] is the name prefix
    [doc_id_]. *)
Theorem delete_document_idempotent : forall d st,
  (forall ch, In ch d -> In ch hex_chars) ->
  let st1 := snd (delete_document d st) in
  delete_document d st1 = (false, st1).
Proof.
  intros d st _ st1. subst st1. unfold delete_document at 1. cbn [snd].
  rewrite (filter_none (fun '(_, c) => str_eqb (doc_id c) d)).
  - unfold delete_document. simpl. unfold load_all_chunks at 1. simpl. rewrite !filter_idem. reflexivity.
  - intros [cid c] H. unfold load_all_chunks in H. simpl in H.
    apply filter_In in H as [_ H]. apply negb_true_iff in H. exact H.
Qed.

Lemma delete_document_idempotent_witness :
  (forall ch, In ch (lit "d1") -> In ch hex_chars)
  /\ delete_document (lit "d1") (snd (delete_document (lit "d1") example_state))
     = (false, snd (delete_document (lit "d1") example_state)).
Proof.
  assert (H : forall ch, In ch (lit "d1") -> In ch hex_chars)
    by (intros ch [<-|[<-|[]]]; cbv; tauto).
  split; [exact H|]. exact (delete_document_idempotent (lit "d1") example_state H).
Defined.

Lemma dict_set_fresh : forall {V} k (v : V) d,
  ~ In k (map fst d) -> dict_set k v d = d ++ [(k, v)].
Proof.
  intros V k v d. induction d as [|[k' v'] d IH]; simpl; intros H; [reflexivity|].
  rewrite str_eqb_neq by (intros E; apply H; left; symmetry; exact E).
  rewrite IH by tauto. reflexivity.
Qed.

Lemma add_chunks_fresh : forall h n m cs i s,
  (forall j, i <= j -> ~ In (chunk_id h j) (map fst s)) ->
  add_chunks h n m i cs s = s ++ add_chunks h n m i cs [].
Proof.
  intros h n m cs. induction cs as [|c cs IH]; intros i s H; simpl; [rewrite app_nil_r; reflexivity|].
  rewrite dict_set_fresh by (apply H; lia).
  rewrite IH.
  - rewrite (IH (S i) [_]).
    + rewrite <- app_assoc. reflexivity.
    + intros j Hj [E|[]]. apply chunk_id_inj in E. lia.
  - intros j Hj. rewrite map_app, in_app_iff. intros [E|[E|[]]].
    + apply (H j); [lia|exact E].
    + apply chunk_id_inj in E. lia.
Qed.

Lemma add_chunks_nil_cons : forall h n m c cs i,
  add_chunks h n m i (c :: cs) []
  = (chunk_id h i, mk_chunk h n (Z.of_nat i) c m) :: add_chunks h n m (S i) cs [].
Proof.
  intros h n m c cs i. simpl. rewrite add_chunks_fresh; [reflexivity|].
  intros j Hj [E|[]]. apply chunk_id_inj in E. lia.
Qed.

Lemma add_chunks_nil_In : forall h n m cs i cid c,
  In (cid, c) (add_chunks h n m i cs []) -> doc_id c = h /\ doc_name c = n /\ metadata c = m.
Proof.
  intros h n m cs. induction cs as [|c0 cs IH]; intros i cid c H; [destruct H|].
  rewrite add_chunks_nil_cons in H. destruct H as [E|H]; [|eapply IH, H].
  injection E as _ <-. simpl. auto.
Qed.

Lemma add_chunks_nil_length : forall h n m cs i, length (add_chunks h n m i cs []) = length cs.
Proof.
  intros h n m cs. induction cs as [|c cs IH]; intros i; [reflexivity|].
  rewrite add_chunks_nil_cons. simpl. rewrite IH. reflexivity.
Qed.

Lemma is_prefix_app : forall p x, is_prefix p (p ++ x) = true.
Proof.
  induction p as [|a p IH]; intros x; simpl; [reflexivity|].
  rewrite IH. unfold ascii_eqb. rewrite Ascii.eqb_refl. reflexivity.
Qed.

(** The situation of a fresh upload: no stored chunk, chunk id or stored
    file belongs to the document id [h] yet. *)
Lemma save_document_fresh : forall ex f content meta st info st1,
  save_document ex f content meta st = Some (info, st1) ->
  (forall cid c, In (cid, c) (load_all_chunks st) -> doc_id c <> info_id info) ->
  (forall i, ~ In (chunk_id (info_id info) i) (map fst (load_all_chunks st))) ->
  exists cs, cs <> [] /\ info_chunk_count info = length cs
    /\ load_all_chunks st1
       = load_all_chunks st ++ add_chunks (info_id info) f (info_metadata info) 0 cs []
    /\ documents_dir st1
       = dict_set (info_id info ++ lit "_" ++ safe_filename f) content (documents_dir st).
Proof.
  intros ex f content meta st info st1 Hs Hd Hk.
  destruct (save_document_some ex f content meta st) as [cs [Hcs Hsave]].
  rewrite Hsave in Hs. injection Hs as <- <-. simpl in *.
  exists cs. split; [eapply chunk_text_out_nonempty, Hcs|]. split; [reflexivity|].
  split; [|reflexivity].
  apply add_chunks_fresh. intros j _. apply Hk.
Qed.

(** X10. Uploading a document whose id is new (no stored chunk, chunk id or
    stored file carries it) and then deleting it returns [True] and restores
    the chunk mapping and the upload directory. *)
Theorem save_then_delete_restores : forall ex f content meta st info st1,
  save_document ex f content meta st = Some (info, st1) ->
  (forall cid c, In (cid, c) (load_all_chunks st) -> doc_id c <> info_id info) ->
  (forall i, ~ In (chunk_id (info_id info) i) (map fst (load_all_chunks st))) ->
  (forall name, In name (map fst (documents_dir st)) ->
                is_prefix (info_id info ++ lit "_") name = false) ->
  delete_document (info_id info) st1
  = (true, mk_state (JsonFile (load_all_chunks st)) (documents_dir st)).
Proof.
  intros ex f content meta st info st1 Hs Hd Hk Hdir.
  destruct (save_document_fresh ex f content meta st info st1 Hs Hd Hk)
    as [cs [Hne [_ [Hload Hdir1]]]].
  set (E := add_chunks (info_id info) f (info_metadata info) 0 cs []) in Hload.
  assert (HE : forall cid c, In (cid, c) E -> doc_id c = info_id info)
    by (intros cid c H; eapply add_chunks_nil_In, H).
  unfold delete_document. rewrite Hload. simpl. rewrite Hdir1.
  rewrite !filter_app.
  rewrite (filter_none (fun '(_, c) => str_eqb (doc_id c) (info_id info)) (load_all_chunks st))
    by (intros [cid c] H; apply str_eqb_neq, (Hd cid c H)).
  rewrite (filter_all (fun '(_, c) => str_eqb (doc_id c) (info_id info)) E)
    by (intros [cid c] H; apply str_eqb_spec, (HE cid c H)).
  rewrite (filter_all (fun '(_, c) => negb (str_eqb (doc_id c) (info_id info))) (load_all_chunks st))
    by (intros [cid c] H; apply negb_true_iff, str_eqb_neq, (Hd cid c H)).
  rewrite (filter_none (fun '(_, c) => negb (str_eqb (doc_id c) (info_id info))) E)
    by (intros [cid c] H; rewrite (HE cid c H), str_eqb_refl; reflexivity).
  rewrite app_nil_r. simpl.
  rewrite dict_set_fresh.
  - rewrite filter_app, filter_all.
    + cbn [filter]. match goal with |- context [is_prefix ?p ?s] => replace (is_prefix p s) with true by (symmetry; replace s with (p ++ safe_filename f) by (rewrite <- app_assoc; reflexivity); apply is_prefix_app) end. simpl. rewrite app_nil_r.
      replace (0 <? length E) with true.
      * reflexivity.
      * symmetry. apply Nat.ltb_lt. subst E. rewrite add_chunks_nil_length.
        destruct cs; [contradiction|simpl; lia].
    + intros [name b] H. apply negb_true_iff, Hdir. apply (in_map fst) in H. exact H.
  - intros H. apply Hdir in H. revert H. match goal with |- is_prefix ?p ?s = false -> _ => replace s with (p ++ safe_filename f) by (rewrite <- app_assoc; reflexivity) end. rewrite is_prefix_app. discriminate.
Qed.

Lemma dict_get_set_same : forall {V} k (v : V) d, dict_get k (dict_set k v d) = Some v.
Proof.
  intros V k v d. induction d as [|[k' v'] d IH]; simpl.
  - rewrite str_eqb_refl. reflexivity.
  - destruct (str_eqb k k') eqn:E; simpl; rewrite ?str_eqb_refl, ?E; auto.
Qed.

Lemma dict_get_set_other : forall {V} k k' (v : V) d,
  k <> k' -> dict_get k (dict_set k' v d) = dict_get k d.
Proof.
  intros V k k' v d Hne. induction d as [|[k0 v0] d IH]; simpl.
  - rewrite str_eqb_neq by exact Hne. reflexivity.
  - destruct (str_eqb k' k0) eqn:E; simpl.
    + apply str_eqb_spec in E. subst. rewrite str_eqb_neq by exact Hne. reflexivity.
    + rewrite IH. reflexivity.
Qed.

Lemma add_chunks_get_other : forall h n m cs i s k,
  (forall j, i <= j -> chunk_id h j <> k) ->
  dict_get k (add_chunks h n m i cs s) = dict_get k s.
Proof.
  intros h n m cs. induction cs as [|c cs IH]; intros i s k Hk; simpl; [reflexivity|].
  rewrite IH by (intros j Hj; apply Hk; lia).
  apply dict_get_set_other. intros E. apply (Hk i); [lia|symmetry; exact E].
Qed.

Lemma add_chunks_get : forall h n m cs i s j t,
  nth_error cs j = Some t ->
  dict_get (chunk_id h (i + j)) (add_chunks h n m i cs s)
  = Some (mk_chunk h n (Z.of_nat (i + j)) t m).
Proof.
  intros h n m cs. induction cs as [|c cs IH]; intros i s j t Hj; [destruct j; discriminate|].
  destruct j as [|j]; simpl in Hj |- *.
  - injection Hj as ->. rewrite Nat.add_0_r.
    rewrite add_chunks_get_other.
    + apply dict_get_set_same.
    + intros j Hj E. apply chunk_id_inj in E. lia.
  - replace (i + S j) with (S i + j) by lia. apply IH, Hj.
Qed.

(** X11. After [save_document], the i-th chunk of the text is stored under
    the id [<hash>_<i>] with the document id, file name, index [i] and
    metadata of the upload, and the reported chunk count is the number of
    chunks. *)
Theorem save_document_lookup : forall ex f content meta st info st1,
  save_document ex f content meta st = Some (info, st1) ->
  exists cs,
    chunk_text (extract_text_from_file ex content (info_file_type info)) 250 50 = Some cs
    /\ info_chunk_count info = length cs
    /\ forall i t, nth_error cs i = Some t ->
         dict_get (chunk_id (info_id info) i) (load_all_chunks st1)
         = Some (mk_chunk (info_id info) f (Z.of_nat i) t (info_metadata info)).
Proof.
  intros ex f content meta st info st1 Hs.
  destruct (save_document_some ex f content meta st) as [cs [Hcs Hsave]].
  rewrite Hsave in Hs. injection Hs as <- <-. simpl.
  exists cs. split; [exact Hcs|]. split; [reflexivity|].
  intros i t Hi. apply (add_chunks_get _ _ _ cs 0 _ i t Hi).
Qed.

Lemma group_add_last : forall docs s c,
  ~ In (doc_id c) (map sum_id docs) -> sum_id s = doc_id c ->
  group_add (docs ++ [s]) c
  = docs ++ [mk_summary (sum_id s) (sum_filename s) (S (sum_chunk_count s)) (sum_metadata s)].
Proof.
  induction docs as [|d docs IH]; intros s c Hn Hs; simpl in *.
  - rewrite Hs, str_eqb_refl. reflexivity.
  - rewrite str_eqb_neq by (intros E; apply Hn; left; exact E).
    rewrite IH by tauto. reflexivity.
Qed.

Lemma group_add_fold_new : forall h n m cs i docs k,
  ~ In h (map sum_id docs) ->
  fold_left (fun docs '(_, c) => group_add docs c) (add_chunks h n m i cs [])
    (docs ++ [mk_summary h n k m])
  = docs ++ [mk_summary h n (k + length cs) m].
Proof.
  intros h n m cs. induction cs as [|c cs IH]; intros i docs k Hn.
  - simpl. rewrite Nat.add_0_r. reflexivity.
  - rewrite add_chunks_nil_cons. simpl.
    rewrite group_add_last by (simpl; auto). simpl.
    rewrite IH by exact Hn. f_equal. f_equal. f_equal. lia.
Qed.

(** X12. After uploading a document whose id is new, [get_all_documents]
    lists the previous documents followed by the new one, with its file
    name, chunk count and metadata, and [has_uploaded_documents] is true. *)
Theorem save_document_listed : forall ex f content meta st info st1,
  save_document ex f content meta st = Some (info, st1) ->
  (forall cid c, In (cid, c) (load_all_chunks st) -> doc_id c <> info_id info) ->
  (forall i, ~ In (chunk_id (info_id info) i) (map fst (load_all_chunks st))) ->
  get_all_documents st1
  = get_all_documents st
    ++ [mk_summary (info_id info) f (info_chunk_count info) (info_metadata info)]
  /\ has_uploaded_documents st1 = true.
Proof.
  intros ex f content meta st info st1 Hs Hd Hk.
  destruct (save_document_fresh ex f content meta st info st1 Hs Hd Hk)
    as [cs [Hne [Hcount [Hload _]]]].
  split.
  - unfold get_all_documents. rewrite Hload, fold_left_app. fold (get_all_documents st).
    assert (Hn : ~ In (info_id info) (map sum_id (get_all_documents st))).
    { intros H. apply in_map_iff in H as [s [Hs1 Hs2]].
      apply get_all_documents_In in Hs2 as [cid [c [H1 H2]]].
      apply (Hd cid c H1). congruence. }
    destruct cs as [|c cs]; [contradiction|].
    rewrite add_chunks_nil_cons. simpl.
    rewrite group_add_notin by exact Hn. simpl.
    rewrite group_add_fold_new by exact Hn. rewrite Hcount. reflexivity.
  - unfold has_uploaded_documents. rewrite Hload.
    destruct cs as [|c cs]; [contradiction|]. rewrite add_chunks_nil_cons.
    destruct (load_all_chunks st); reflexivity.
Qed.

(** The stored file name. *)

Lemma le_bytes_spec : forall n x,
  length (MD5.le_bytes n x) = n /\ Forall (fun b => (0 <= b < 256)%Z) (MD5.le_bytes n x).
Proof.
  induction n as [|n IH]; intros x; simpl; [split; [reflexivity|constructor]|].
  destruct (IH (x / 256)%Z) as [H1 H2]. split; [rewrite H1; reflexivity|].
  constructor; [apply Z.mod_pos_bound; lia|exact H2].
Qed.

Lemma digest_spec : forall msg,
  length (MD5.digest msg) = 16 /\ Forall (fun b => (0 <= b < 256)%Z) (MD5.digest msg).
Proof.
  intros msg. unfold MD5.digest.
  destruct (MD5.blocks _ _ _ _ _ _) as [[[a b] c] d].
  destruct (le_bytes_spec 4 a) as [La Fa], (le_bytes_spec 4 b) as [Lb Fb],
           (le_bytes_spec 4 c) as [Lc Fc], (le_bytes_spec 4 d) as [Ld Fd].
  split.
  - rewrite !length_app, La, Lb, Lc, Ld. reflexivity.
  - repeat (apply Forall_app; split); assumption.
Qed.

Lemma hex_digit_in : forall n, (0 <= n < 16)%Z -> In (MD5.hex_digit n) hex_chars.
Proof.
  intros n Hn.
  assert (A : forall k, k < 16 -> In (MD5.hex_digit (Z.of_nat k)) hex_chars).
  { intros k Hk. do 16 (destruct k as [|k]; [cbv; tauto|]). lia. }
  rewrite <- (Z2Nat.id n) by lia. apply A. lia.
Qed.

Lemma hexdigest_spec : forall content,
  length (compute_file_hash content) = 32
  /\ forall ch, In ch (compute_file_hash content) -> In ch hex_chars.
Proof.
  intros content. unfold compute_file_hash, MD5.hexdigest.
  destruct (digest_spec (map (fun b => Z.of_N (Byte.to_N b)) content)) as [L F].
  generalize dependent (MD5.digest (map (fun b => Z.of_N (Byte.to_N b)) content)).
  intros l L F. split.
  - assert (G : forall l, length (flat_map MD5.hex_byte l) = 2 * length l)
      by (induction l0 as [|x l0 IH]; simpl; [reflexivity|rewrite IH; lia]).
    rewrite G, L. reflexivity.
  - intros ch H. apply in_flat_map in H as [b [Hb Hc]].
    rewrite Forall_forall in F. specialize (F b Hb).
    destruct Hc as [<-|[<-|[]]]; apply hex_digit_in.
    + split; [apply Z.div_pos; lia|apply Z.div_lt_upper_bound; lia].
    + apply Z.mod_pos_bound. lia.
Qed.

(** X13. [compute_file_hash] gives 32 lowercase hex digits. *)
Theorem compute_file_hash_hex : forall content,
  length (compute_file_hash content) = 32
  /\ forall ch, In ch (compute_file_hash content) -> In ch hex_chars.
Proof. exact hexdigest_spec. Qed.

Lemma safe_char_ok : forall c,
  is_word_char (safe_char c) || ascii_eqb (safe_char c) "-"%char
  || ascii_eqb (safe_char c) "."%char = true.
Proof.
  intros c. unfold safe_char.
  destruct (is_word_char c || ascii_eqb c "-"%char || ascii_eqb c "."%char) eqn:E;
    [exact E|reflexivity].
Qed.

Lemma safe_char_idem : forall c, safe_char (safe_char c) = safe_char c.
Proof.
  intros c. unfold safe_char at 1. rewrite safe_char_ok. reflexivity.
Qed.

(** X14. [safe_filename] keeps the length, is idempotent, leaves only word
    characters, [-] and [.], and keeps every such character in place. *)
Theorem safe_filename_props : forall filename,
  length (safe_filename filename) = length filename
  /\ safe_filename (safe_filename filename) = safe_filename filename
  /\ (forall ch, In ch (safe_filename filename) ->
        is_word_char ch || ascii_eqb ch "-"%char || ascii_eqb ch "."%char = true)
  /\ (forall ch, In ch filename ->
        is_word_char ch || ascii_eqb ch "-"%char || ascii_eqb ch "."%char = true ->
        In ch (safe_filename filename)).
Proof.
  intros f. unfold safe_filename. split; [apply length_map|]. split.
  - rewrite map_map. apply map_ext, safe_char_idem.
  - split.
    + intros ch H. apply in_map_iff in H as [c [<- _]]. apply safe_char_ok.
    + intros ch H Hok. apply in_map_iff. exists ch. split; [|exact H].
      unfold safe_char. rewrite Hok. reflexivity.
Qed.

(** X15. The stored file name [<hash>_<safe name>] has no [/]: an upload is
    always written directly inside the upload directory. *)
Theorem stored_name_no_slash : forall content filename,
  ~ In "/"%char (compute_file_hash content ++ lit "_" ++ safe_filename filename).
Proof.
  intros content f H. apply in_app_iff in H as [H|[H|H]].
  - apply hexdigest_spec in H. cbv in H. repeat (destruct H as [H|H]; [discriminate|]). destruct H.
  - discriminate.
  - unfold safe_filename in H. apply in_map_iff in H as [c [Hc _]].
    pose proof (safe_char_ok c) as E. rewrite Hc in E. discriminate.
Qed.

(** Semantic search and context. *)

Lemma sublist_In : forall {A} (l l' : list A) x, sublist l l' -> In x l -> In x l'.
Proof.
  intros A l l' x H. induction H as [|y l l' H IH|y l l' H IH]; simpl; auto.
  intros [E|Hx]; auto.
Qed.

Lemma simple_search_length : forall q k st,
  length (simple_search q k st) <= length (load_all_chunks st).
Proof.
  intros q k st. unfold simple_search, search_store.
  destruct (load_all_chunks st) as [|p ps] eqn:E; [simpl; lia|].
  rewrite <- E. unfold py_slice. rewrite length_firstn, length_skipn.
  rewrite (Permutation_length (sort_results_perm _)).
  pose proof (scored_results_length q (load_all_chunks st)). lia.
Qed.

Lemma simple_search_entry : forall q k st r,
  In r (simple_search q k st) ->
  exists cid c, In (cid, c) (load_all_chunks st) /\ result_entry r = chunk_entry c.
Proof.
  intros q k st r H. apply simple_search_sub in H. unfold scored_results in H.
  apply in_flat_map in H as [[cid c] [Hin Hr]].
  destruct (score_chunk _ _ _ c) as [sc m].
  destruct (Qpos sc); [|destruct Hr].
  destruct Hr as [<-|[]]. exists cid, c. split; [exact Hin|reflexivity].
Qed.

(** X16. For a non-negative [top_k], [semantic_search_with_gemini] returns at
    most [min(top_k, number of stored chunks)] entries, each the name and
    text of a stored chunk. *)
Theorem semantic_search_bounded : forall query top_k st res,
  semantic_search_with_gemini query top_k st res ->
  (0 <= top_k)%Z ->
  length res <= Nat.min (Z.to_nat top_k) (length (load_all_chunks st))
  /\ forall e, In e res -> exists cid c, In (cid, c) (load_all_chunks st) /\ e = chunk_entry c.
Proof.
  intros q k st res H Hk. destruct H as [Hl|r rs Hl Hs|picked sub Hl Hs Hk' Hsub Hp Hlen].
  - split; [simpl; lia|intros e []].
  - rewrite py_slice_nonneg by exact Hk. rewrite <- Hs. split.
    + rewrite length_map, length_firstn. pose proof (simple_search_length q 20 st). lia.
    + intros e He. apply in_map_iff in He as [r' [<- Hr']].
      apply In_firstn_l in Hr'. apply simple_search_entry in Hr' as [cid [c [H1 H2]]].
      exists cid, c. auto.
  - split; [rewrite length_map, Hlen; lia|].
    intros e He. apply in_map_iff in He as [c [<- Hc]].
    apply (Permutation_in _ Hp), (sublist_In _ _ _ Hsub) in Hc.
    apply in_map_iff in Hc as [[cid c'] [Ec Hc]]. simpl in Ec. subst c'.
    exists cid, c. auto.
Qed.

Lemma join_nonempty : forall sep x r, x <> [] -> join sep (x :: r) <> [].
Proof.
  intros sep x r Hx. destruct r as [|y r]; simpl; [exact Hx|].
  destruct x; [contradiction|discriminate].
Qed.

Lemma assemble_context_nonempty : forall results max_chars,
  results <> [] -> (100 < max_chars)%Z -> assemble_context results max_chars <> [].
Proof.
  intros [|[dn t] rs] mx Hr Hmx; [contradiction|].
  unfold assemble_context. simpl.
  destruct (mx <? Z.of_nat (length t))%Z.
  - replace (100 <? mx - 0)%Z with true by (symmetry; apply Z.ltb_lt; lia).
    apply join_nonempty. unfold context_part. discriminate.
  - apply join_nonempty. unfold context_part. discriminate.
Qed.

(** X17. With at least one stored chunk, [max_chunks >= 1] and [max_chars >
    100], [get_context_for_query] never returns the empty string (as
    [answer_document_question] calls it, with 4 and 4000). *)
Theorem get_context_nonempty : forall query max_chunks max_chars st out,
  load_all_chunks st <> [] -> (1 <= max_chunks)%Z -> (100 < max_chars)%Z ->
  get_context_for_query query max_chunks max_chars st out -> out <> [].
Proof.
  intros q mc mx st out Hl Hmc Hmx [results [Hs ->]].
  apply assemble_context_nonempty; [|exact Hmx].
  destruct Hs as [E|r rs _ _|picked sub _ _ _ _ _ Hlen].
  - contradiction.
  - rewrite py_slice_nonneg by lia. destruct (Z.to_nat mc) eqn:E; [lia|]. discriminate.
  - destruct picked as [|p ps]; [|discriminate].
    simpl in Hlen. destruct (load_all_chunks st); [contradiction|]. simpl in Hlen. lia.
Qed.

(** The caller [classify_question]. *)

Lemma existsb_lower : forall ks q,
  existsb (fun k => is_sub k (lower (lower q))) ks = existsb (fun k => is_sub k (lower q)) ks.
Proof. intros ks q. rewrite lower_idem. reflexivity. Qed.

(** X18. [classify_question] does not depend on the case of the question. *)
Theorem classify_question_case_insensitive : forall rag q st,
  classify_question rag (lower q) st = classify_question rag q st.
Proof.
  intros rag q st. unfold classify_question.
  rewrite lower_idem, simple_search_lower_query. reflexivity.
Qed.

(** X19. [classify_question] answers ['document'] only when the document
    module is available and some document is uploaded. *)
Theorem classify_question_document_needs_docs : forall rag q st,
  classify_question rag q st = QDocument -> rag = true /\ has_uploaded_documents st = true.
Proof.
  intros rag q st. unfold classify_question.
  destruct (existsb (fun k => is_sub k (lower q)) db_keywords);
    destruct rag, (has_uploaded_documents st); cbn [andb]; auto; intros H; discriminate H.
Qed.

(** Query expansion. *)

Lemma set_add_NoDup : forall x l, NoDup l -> NoDup (set_add x l).
Proof.
  intros x l H. unfold set_add. destruct (mem_str x l) eqn:E; [exact H|].
  apply (Permutation_NoDup (Permutation_cons_append _ _)). constructor; [|exact H].
  intros Hx. apply mem_str_In in Hx. congruence.
Qed.

Lemma set_add_incl : forall x l y, In y l -> In y (set_add x l).
Proof.
  intros x l y H. unfold set_add. destruct (mem_str x l); [exact H|].
  apply in_app_iff. auto.
Qed.

Lemma set_update_NoDup : forall acc xs, NoDup acc -> NoDup (set_update acc xs).
Proof.
  intros acc xs. unfold set_update. revert acc.
  induction xs as [|x xs IH]; intros acc H; simpl; [exact H|].
  apply IH, set_add_NoDup, H.
Qed.

Lemma set_update_incl : forall acc xs y, In y acc -> In y (set_update acc xs).
Proof.
  intros acc xs. unfold set_update. revert acc.
  induction xs as [|x xs IH]; intros acc y H; simpl; [exact H|].
  apply IH, set_add_incl, H.
Qed.

Lemma set_update_has : forall acc xs y, In y xs -> In y (set_update acc xs).
Proof.
  intros acc xs. unfold set_update. revert acc.
  induction xs as [|x xs IH]; intros acc y H; simpl; [destruct H|].
  destruct H as [->|H]; [|apply IH, H].
  apply set_update_incl. unfold set_add. destruct (mem_str y acc) eqn:E.
  - apply mem_str_In, E.
  - apply in_app_iff. right. left. reflexivity.
Qed.

(** X20. [expand_query_with_synonyms] has no duplicates, contains every
    original query word, and adds only words of the synonym table, never a
    stopword. *)
Theorem expand_query_with_synonyms_set : forall query,
  let ex := expand_query_with_synonyms query in
  NoDup ex
  /\ (forall w, In w (original_words query) -> In w ex)
  /\ (forall w, In w ex -> (In w (original_words query) \/ In w table_words)
                           /\ is_stopword w = false).
Proof.
  intros q ex. subst ex. split; [|split].
  - unfold expand_query_with_synonyms.
    apply fold_left_inv.
    + apply set_update_NoDup. constructor.
    + intros e w _ He.
      apply fold_left_inv.
      * destruct (assoc_str w HR_SYNONYMS); [apply set_update_NoDup|]; exact He.
      * intros e' [key syns] _ He'. destruct (mem_str w syns); [|exact He'].
        apply set_update_NoDup, set_add_NoDup, He'.
  - intros w Hw. unfold expand_query_with_synonyms.
    apply fold_left_inv; [apply set_update_has, Hw|].
    intros e w' _ He. apply fold_left_inv.
    + destruct (assoc_str w' HR_SYNONYMS); [apply set_update_incl|]; exact He.
    + intros e' [key syns] _ He'. destruct (mem_str w' syns); [|exact He'].
      apply set_update_incl, set_add_incl, He'.
  - intros w Hw. split; [exact (expand_query_words q w Hw)|exact (expand_query_not_stopwords q w Hw)].
Qed.

(** X7. [simple_search] does not depend on the case of the query. *)
Lemma simple_search_case_insensitive : forall query top_k st,
  simple_search (lower query) top_k st = simple_search query top_k st.
Proof. exact simple_search_lower_query. Qed.

Lemma simple_search_results_stored_witness :
  match simple_search (lit "leave policy") 3 example_state with
  | r :: _ => In r (simple_search (lit "leave policy") 3 example_state)
              /\ exists c, In (res_chunk_id r, c) (load_all_chunks example_state)
                   /\ res_doc_id r = doc_id c
  | [] => False
  end.
Proof.
  destruct (simple_search (lit "leave policy") 3 example_state) as [|r rs] eqn:E.
  - vm_compute in E. discriminate.
  - split; [left; reflexivity|].
    destruct (simple_search_results_stored (lit "leave policy") 3 example_state r)
      as [c [H1 [H2 _]]].
    + rewrite E. left. reflexivity.
    + exists c. split; assumption.
Defined.

Lemma simple_search_top_k_prefix_witness :
  (0 <= 1)%Z /\ (1 <= 3)%Z /\
  simple_search (lit "leave policy") 1 example_state
  = firstn 1 (simple_search (lit "leave policy") 3 example_state).
Proof.
  split; [lia|]. split; [lia|].
  apply (simple_search_top_k_prefix (lit "leave policy") 1 3 example_state); lia.
Defined.

Lemma save_then_delete_restores_witness :
  match example_upload with
  | Some (info, st1) =>
      example_upload = Some (info, st1)
      /\ delete_document (info_id info) st1 = (true, mk_state (JsonFile []) [])
  | None => False
  end.
Proof.
  destruct example_upload as [[info st1]|] eqn:E.
  - split; [reflexivity|].
    apply (save_then_delete_restores ascii_extractors (lit "notes.txt")
             (list_byte_of_string "hello. world.")
             None empty_state info st1 E).
    + intros cid c [].
    + intros i [].
    + intros name [].
  - vm_compute in E. discriminate.
Defined.

Lemma save_document_lookup_witness :
  match example_upload with
  | Some (info, st1) =>
      example_upload = Some (info, st1)
      /\ dict_get (chunk_id (info_id info) 0) (load_all_chunks st1)
         = Some (mk_chunk (info_id info) (lit "notes.txt") 0 (lit "hello. world.") [])
  | None => False
  end.
Proof.
  destruct example_upload as [[info st1]|] eqn:E.
  - split; [reflexivity|].
    destruct (save_document_lookup ascii_extractors (lit "notes.txt")
                (list_byte_of_string "hello. world.")
                None empty_state info st1 E) as [cs [Hcs [_ Hget]]].
    assert (Hi : info_file_type info = lit ".txt" /\ info_metadata info = []).
    { unfold example_upload in E. vm_compute in E. injection E as <- _. split; reflexivity. }
    destruct Hi as [Hft Hm]. rewrite Hft in Hcs. vm_compute in Hcs. injection Hcs as <-.
    rewrite <- Hm. apply (Hget 0). reflexivity.
  - vm_compute in E. discriminate.
Defined.

Lemma save_document_listed_witness :
  match example_upload with
  | Some (info, st1) =>
      example_upload = Some (info, st1)
      /\ get_all_documents st1
         = [mk_summary (info_id info) (lit "notes.txt") (info_chunk_count info) []]
      /\ has_uploaded_documents st1 = true
  | None => False
  end.
Proof.
  destruct example_upload as [[info st1]|] eqn:E.
  - split; [reflexivity|].
    assert (Hm : info_metadata info = []).
    { unfold example_upload in E. vm_compute in E. injection E as <- _. reflexivity. }
    rewrite <- Hm.
    apply (save_document_listed ascii_extractors (lit "notes.txt")
             (list_byte_of_string "hello. world.")
             None empty_state info st1 E).
    + intros cid c [].
    + intros i [].
  - vm_compute in E. discriminate.
Defined.

Lemma semantic_search_bounded_witness :
  let res := map chunk_entry (map snd (load_all_chunks example_state)) in
  semantic_search_with_gemini (lit "zzz") 1 example_state res /\ (0 <= 1)%Z
  /\ res <> []
  /\ length res <= Nat.min (Z.to_nat 1) (length (load_all_chunks example_state))
  /\ (forall e, In e res ->
        exists cid c, In (cid, c) (load_all_chunks example_state) /\ e = chunk_entry c).
Proof.
  intros res.
  assert (H : semantic_search_with_gemini (lit "zzz") 1 example_state res).
  { apply (semantic_sample _ _ _ (map snd (load_all_chunks example_state))
             (map snd (load_all_chunks example_state))).
    - discriminate.
    - vm_compute. reflexivity.
    - lia.
    - simpl. apply sublist_keep, sublist_nil.
    - apply Permutation_refl.
    - reflexivity. }
  destruct (semantic_search_bounded (lit "zzz") 1 example_state res H ltac:(lia)) as [A B].
  split; [exact H|]. split; [lia|]. split; [discriminate|]. split; [exact A|exact B].
Defined.

Lemma get_context_nonempty_witness :
  let q := lit "leave policy" in
  let out := assemble_context (map result_entry (py_slice (simple_search q 20 example_state) 0 4)) 4000 in
  load_all_chunks example_state <> [] /\ (1 <= 4)%Z /\ (100 < 4000)%Z
  /\ get_context_for_query q 4 4000 example_state out /\ out <> [].
Proof.
  intros q out. subst out.
  destruct (simple_search q 20 example_state) as [|r rs] eqn:E.
  - vm_compute in E. discriminate.
  - assert (Hl : load_all_chunks example_state <> []) by discriminate.
    assert (Hg : get_context_for_query q 4 4000 example_state
                   (assemble_context (map result_entry (py_slice (r :: rs) 0 4)) 4000)).
    { exists (map result_entry (py_slice (r :: rs) 0 4)). split; [|reflexivity].
      apply semantic_keyword; assumption. }
    split; [exact Hl|]. split; [lia|]. split; [lia|]. split; [exact Hg|].
    apply (get_context_nonempty q 4 4000 example_state _ Hl); [lia|lia|exact Hg].
Defined.

Lemma classify_question_document_needs_docs_witness :
  classify_question true (lit "What is the leave policy?") example_state = QDocument
  /\ true = true /\ has_uploaded_documents example_state = true.
Proof.
  assert (H : classify_question true (lit "What is the leave policy?") example_state = QDocument)
    by (vm_compute; reflexivity).
  split; [exact H|]. exact (classify_question_document_needs_docs _ _ _ H).
Defined.
